(** * A shallow embedding of the CRM mutation layer

    Source files embedded here:
      - [crm/models.py]  : [Customer], [Product], [Order], [Order.calculate_total]
      - [crm/schema.py]  : [CreateCustomer.mutate], [BulkCreateCustomers.mutate],
                           [CreateProduct.mutate], [CreateOrder.mutate]

    What the model fixes:
      - The relational store is three tables keyed by primary key (finite
        maps) and the join table of [Order.products] (a finite set of
        pairs).  A created row gets an unused key; a write stores the value
        it is handed.  The two decimal columns are
        [DecimalField(max_digits=10, decimal_places=2)]: a value the column
        holds exactly ([DecimalField_holds]) is read back as it was written,
        and the store is faithful on those; what a backend does to any
        other decimal (it rounds it, or fails to read it back) is outside
        the model, and the properties that read such a column back assume
        that the column holds the value.
      - Identifiers ([graphene.ID]) reach a resolver as strings; the object
        manager converts them with [int], and a string that [int] refuses
        leaves the resolver as a [ValueError].
      - A Python exception is a value of an explicit result type: a method
        either returns or raises, and a method that raises has written
        nothing when its raise sites all precede its writes, as they do in
        the four mutations.
      - [validate_email] belongs to Django; it is a parameter.
      - Text is ASCII: a Rocq [string] is a byte string, so the Unicode
        digits and white space that Python's [str] methods, [int] and
        [Decimal] also recognise are outside the model; a property that
        depends on a string being refused assumes the string to be ASCII
        ([isascii]). *)

From Stdlib Require Import ZArith QArith Qpower Ascii.
From stdpp Require Import gmap strings list fin_maps pretty.

Open Scope string_scope.
Open Scope list_scope.
Open Scope Z_scope.

(** ** Python values *)

(** Exceptions that leave a resolver.  [GraphQLError] carries the message
    the source raises it with; the other constructors are exceptions that
    the source does not catch. *)
Inductive Exception :=
  | GraphQLError (message : string)
  | InvalidOperation          (* decimal.InvalidOperation *)
  | ValueError                (* an identifier that [int] refuses *)
  | StorageError              (* a DecimalField column refusing a non-finite value *)
  | DatabaseError.            (* save(update_fields=...) updating no row *)

Inductive Result (A : Type) :=
  | Return (a : A)
  | Raise (e : Exception).
Arguments Return {A} a.
Arguments Raise {A} e.

(** The error kinds of the specification, attached to the messages the
    source raises. *)
Inductive ErrorKind := ValidationError | DuplicateError | FormatError | NotFoundError.

Definition kind_of_message (m : string) : option ErrorKind :=
  if decide (m = "Invalid email format") then Some ValidationError
  else if decide (m = "Email already exists") then Some DuplicateError
  else if decide (m = "Invalid phone format. Use +1234567890 or 123-456-7890")
       then Some ValidationError
  else if decide (m = "Invalid decimal format for price") then Some FormatError
  else if decide (m = "Price must be positive") then Some ValidationError
  else if decide (m = "Stock cannot be negative") then Some ValidationError
  else if decide (m = "Invalid customer ID") then Some NotFoundError
  else if decide (m = "Some product IDs are invalid") then Some NotFoundError
  else if decide (m = "Order must include at least one product") then Some ValidationError
  else None.

Definition error_kind {A} (r : Result A) : option ErrorKind :=
  match r with
  | Raise (GraphQLError m) => kind_of_message m
  | _ => None
  end.

(** *** [str] methods used by the phone check

    Python's [str.isdigit] also accepts the decimal digits of other
    scripts; on ASCII text, which is all a [string] here can hold, it is
    the test below. *)

Definition is_digit (c : ascii) : bool :=
  let n := Z.of_nat (nat_of_ascii c) in (48 <=? n) && (n <=? 57).

(** [s.startswith("+")] *)
Definition startswith_plus (s : string) : bool :=
  match s with
  | String c _ => bool_decide (c = "+"%char)
  | EmptyString => false
  end.

(** [s.replace("-", "")] *)
Fixpoint remove_hyphens (s : string) : string :=
  match s with
  | EmptyString => EmptyString
  | String c s' =>
      if bool_decide (c = "-"%char) then remove_hyphens s'
      else String c (remove_hyphens s')
  end.

Fixpoint all_digits (s : string) : bool :=
  match s with
  | EmptyString => true
  | String c s' => is_digit c && all_digits s'
  end.

(** [s.isdigit()]: at least one character, and every character a digit. *)
Definition isdigit (s : string) : bool :=
  match s with
  | EmptyString => false
  | _ => all_digits s
  end.

(** Truth value of an optional string: [None] and [""] are falsy. *)
Definition truthy (o : option string) : bool :=
  match o with
  | None | Some EmptyString => false
  | Some _ => true
  end.

(** The condition of [schema.py] lines 86 and 116:
    [phone and not (phone.startswith("+") or phone.replace("-", "").isdigit())]. *)
Definition phone_rejected (phone : option string) : bool :=
  match phone with
  | None => false
  | Some p =>
      truthy phone && negb (startswith_plus p || isdigit (remove_hyphens p))
  end.

(** *** [decimal.Decimal] *)

(** A finite decimal is [coef * 10 ^ exp]. *)
Record Finite := mkFinite { coef : Z; exp : Z }.

Inductive Decimal :=
  | Fin (f : Finite)
  | Inf (negative : bool)
  | NaN (signaling : bool).

Global Instance Finite_eq_dec : EqDecision Finite.
Proof. solve_decision. Defined.
Global Instance Decimal_eq_dec : EqDecision Decimal.
Proof. solve_decision. Defined.

(** [Decimal(s)] for a string [s]: Python strips white space, drops
    underscores and matches, ignoring case,
    [[-+]? ( digits? (. digits?)? (E [-+]? digits)? | Inf(inity)? | s? NaN digits? )]
    where the numeric alternative needs at least one digit in its integer
    or fractional part.  [None] stands for the [InvalidOperation] that
    the constructor raises on any other string. *)

Definition is_space (c : ascii) : bool :=
  let n := Z.of_nat (nat_of_ascii c) in
  ((9 <=? n) && (n <=? 13)) || ((28 <=? n) && (n <=? 32)).

Fixpoint lstrip (l : list ascii) : list ascii :=
  match l with
  | c :: l' => if is_space c then lstrip l' else l
  | [] => []
  end.

Definition strip (l : list ascii) : list ascii :=
  rev (lstrip (rev (lstrip l))).

Definition lower (c : ascii) : ascii :=
  let n := nat_of_ascii c in
  if ((65 <=? n) && (n <=? 90))%nat then ascii_of_nat (n + 32) else c.

Definition digit_value (c : ascii) : Z := Z.of_nat (nat_of_ascii c) - 48.

(** Value of a digit string read left to right; [0] for the empty one. *)
Definition int_of_digits (l : list ascii) : Z :=
  fold_left (fun acc c => 10 * acc + digit_value c) l 0.

(** Longest prefix of digits, and the rest. *)
Fixpoint span_digits (l : list ascii) : list ascii * list ascii :=
  match l with
  | c :: l' =>
      if is_digit c then let '(ds, r) := span_digits l' in (c :: ds, r)
      else ([], l)
  | [] => ([], [])
  end.

Definition parse_sign (l : list ascii) : bool * list ascii :=
  match l with
  | "-"%char :: l' => (true, l')
  | "+"%char :: l' => (false, l')
  | _ => (false, l)
  end.

(** The exponent part: nothing, or [E], an optional sign and digits. *)
Definition parse_exponent (l : list ascii) : option Z :=
  match l with
  | [] => Some 0
  | c :: l' =>
      if bool_decide (lower c = "e"%char) then
        let '(neg, l'') := parse_sign l' in
        let '(ds, r) := span_digits l'' in
        match ds, r with
        | _ :: _, [] => Some (if neg then - int_of_digits ds else int_of_digits ds)
        | _, _ => None
        end
      else None
  end.

(** The limits of CPython's [decimal] (64-bit build): the constructor
    raises [InvalidOperation] when the adjusted exponent of the number
    exceeds [MAX_EMAX] or its exponent is below [MIN_ETINY]. *)
Definition MAX_EMAX : Z := 999999999999999999.
Definition MIN_ETINY : Z := -1999999999999999997.

Fixpoint drop_zeros (ds : list ascii) : list ascii :=
  match ds with
  | "0"%char :: ds' => drop_zeros ds'
  | _ => ds
  end.

(** The number of digits of the coefficient written [ds]; [0] has one. *)
Definition decimal_digits (ds : list ascii) : Z :=
  Z.max 1 (Z.of_nat (length (drop_zeros ds))).

Definition within_exponent_limits (ds : list ascii) (e : Z) : bool :=
  (e + decimal_digits ds - 1 <=? MAX_EMAX) && (MIN_ETINY <=? e).

Definition parse_number (negative : bool) (l : list ascii) : option Decimal :=
  let '(ip, r1) := span_digits l in
  let '(fp, r2) :=
    match r1 with
    | "."%char :: r => span_digits r
    | _ => ([], r1)
    end in
  match ip ++ fp with
  | [] => None
  | ds =>
      match parse_exponent r2 with
      | Some e =>
          let c := int_of_digits ds in
          let e' := e - Z.of_nat (List.length fp) in
          if within_exponent_limits ds e' then
            Some (Fin (mkFinite (if negative then - c else c) e'))
          else None
      | None => None
      end
  end.

Definition parse_special (negative : bool) (l : list ascii) : option Decimal :=
  let w := String.string_of_list_ascii (map lower l) in
  if bool_decide (w = "inf") || bool_decide (w = "infinity") then Some (Inf negative)
  else
    match map lower l with
    | "n"%char :: "a"%char :: "n"%char :: d =>
        if forallb is_digit d then Some (NaN false) else None
    | "s"%char :: "n"%char :: "a"%char :: "n"%char :: d =>
        if forallb is_digit d then Some (NaN true) else None
    | _ => None
    end.

Definition Decimal_of_string (s : string) : option Decimal :=
  let l := filter (fun c => c <> "_"%char) (strip (String.list_ascii_of_string s)) in
  let '(negative, body) := parse_sign l in
  match parse_special negative body with
  | Some d => Some d
  | None => parse_number negative body
  end.

(** *** [int]

    [int(s)] for a string [s]: Python strips white space and reads an
    optional sign and decimal digits, with single underscores allowed
    between digits; more than [int_max_str_digits] digits are refused.
    [None] stands for the [ValueError] raised on any other string. *)

Fixpoint int_digits (after_digit : bool) (l : list ascii) (acc : Z) : option Z :=
  match l with
  | [] => if after_digit then Some acc else None
  | c :: l' =>
      if is_digit c then int_digits true l' (10 * acc + digit_value c)
      else if bool_decide (c = "_"%char) && after_digit then int_digits false l' acc
      else None
  end.

(** The default of [sys.int_max_str_digits]. *)
Definition int_max_str_digits : nat := 4300.

Definition int_of_string (s : string) : option Z :=
  let '(negative, body) := parse_sign (strip (String.list_ascii_of_string s)) in
  if (int_max_str_digits <? length (filter (fun c => is_digit c = true) body))%nat
  then None
  else
    match int_digits false body 0 with
    | Some n => Some (if negative then - n else n)
    | None => None
    end.

(** [d <= 0].  An ordering comparison with a NaN operand signals
    [InvalidOperation], which the default context turns into an
    exception: [None]. *)
Definition Decimal_le_zero (d : Decimal) : option bool :=
  match d with
  | Fin f => Some (coef f <=? 0)
  | Inf negative => Some negative
  | NaN _ => None
  end.

(** [a + b] on finite operands: the operands are aligned on the smaller
    exponent and the coefficients added.  Python then rounds to the 28
    significant digits of the default context; the operands below are
    [DecimalField(max_digits=10)] columns, so that step changes nothing
    and is left out. *)
Definition Finite_add (a b : Finite) : Finite :=
  let e := Z.min (exp a) (exp b) in
  mkFinite (coef a * 10 ^ (exp a - e) + coef b * 10 ^ (exp b - e)) e.

(** The builtin [sum(xs)]: starts from the integer [0]. *)
Definition py_sum (xs : list Finite) : Finite :=
  fold_left Finite_add xs (mkFinite 0 0).

(** The rational number a finite decimal denotes. *)
Definition Finite_value (f : Finite) : Q :=
  (inject_Z (coef f) * Qpower (inject_Z 10) (exp f))%Q.

Definition exact_sum (xs : list Finite) : Q :=
  fold_right (fun f acc => (Finite_value f + acc)%Q) (0%Q) xs.


(** ** The data model ([models.py]) *)

(** A primary key ([id], an auto-incremented column). *)
Abbreviation PK := positive (only parsing).
Abbreviation DateTime := Z (only parsing).

Module Customer.
Record t := mk { name : string; email : string; phone : option string }.
End Customer.

Module Product.
(** [price] is a [DecimalField]: the column holds finite decimals. *)
Record t := mk {
  name : string;
  description : option string;
  stock : Z;
  price : Finite
}.
End Product.

Module Order.
Record t := mk { customer : PK; total_amount : Finite; order_date : DateTime }.
Definition with_total_amount (o : t) (total : Finite) : t :=
  mk (customer o) total (order_date o).
End Order.

(** The persisted state: one table per model, keyed by primary key, and
    the join table of [Order.products]. *)
Record Store := mkStore {
  customers : gmap positive Customer.t;
  products : gmap positive Product.t;
  orders : gmap positive Order.t;
  order_products : gset (positive * positive)
}.

Definition empty_store : Store := mkStore ∅ ∅ ∅ ∅.

(** A model instance that has been saved: its primary key and its fields. *)
Definition Saved (A : Type) : Type := positive * A.

(** ** The input objects ([schema.py]) *)

Module CustomerInput.
Record t := mk { name : string; email : string; phone : option string }.
End CustomerInput.

Module ProductInput.
Record t := mk { name : string; price : string; stock : Z }.
(** [stock = graphene.Int(default_value=0)] *)
Definition of_fields (name price : string) (stock : option Z) : t :=
  mk name price (default 0 stock).
End ProductInput.

(** [customer_id] and [product_ids] are [graphene.ID]s: whatever the
    client writes, an integer or a string literal, the resolver receives
    its text. *)
Module OrderInput.
Record t := mk {
  customer_id : string;
  product_ids : list string;
  order_date : option DateTime
}.
End OrderInput.

(** ** The object manager *)

(** [Customer.objects.filter(email=e).exists()] *)
Definition email_exists (db : Store) (e : string) : bool :=
  bool_decide (map_Exists (fun _ c => Customer.email c = e) (customers db)).

(** [Customer.objects.create(...)]: the row gets an unused primary key. *)
Definition Customer_objects_create (db : Store) (c : Customer.t)
  : Store * Saved Customer.t :=
  let pk := fresh (dom (customers db)) in
  (mkStore (<[pk := c]> (customers db)) (products db) (orders db) (order_products db),
   (pk, c)).

(** The integer value of a primary key, and the key an integer denotes:
    keys are positive, so no row answers to another integer. *)
Definition pk_of_int (z : Z) : option positive :=
  match z with
  | Zpos pk => Some pk
  | _ => None
  end.


(** [Customer.objects.get(id=z)] once the identifier is the integer [z];
    [None] is [Customer.DoesNotExist]. *)
Definition Customer_objects_get (db : Store) (z : Z) : option (Saved Customer.t) :=
  pk ← pk_of_int z; c ← customers db !! pk; Some (pk, c).

(** What a [DecimalField(max_digits=10, decimal_places=2)] column holds
    exactly: at most two decimal places and, written with two, at most ten
    digits.  Such a value is read back as the number that was written (a
    backend pads it to two places; the store keeps the digits as they were
    written, which denote the same number). *)
Definition DecimalField_holds (f : Finite) : Prop :=
  -2 <= exp f /\ Z.abs (coef f) * 10 ^ (exp f + 2) < 10 ^ 10.

(** [Product.objects.create(...)].  The price handed over is a Python
    [Decimal]; the column refuses infinities and NaNs.  The instance
    returned carries the price it was given.  The row carries it too, which
    is what a later read finds when the column holds the price
    ([DecimalField_holds]); the properties that read the row back assume
    so. *)
Definition Product_objects_create (db : Store) (name : string) (price : Decimal)
    (stock : Z) : Result (Store * Saved Product.t) :=
  match price with
  | Fin f =>
      let pk := fresh (dom (products db)) in
      let p := Product.mk name None stock f in
      Return
        (mkStore (customers db) (<[pk := p]> (products db)) (orders db) (order_products db),
         (pk, p))
  | _ => Raise StorageError
  end.

(** The product rows whose key is in [pks]. *)
Definition products_with_keys (db : Store) (pks : list PK)
  : list (Saved Product.t) :=
  filter (fun kp => kp.1 ∈ pks) (map_to_list (products db)).

(** [list(Product.objects.filter(id__in=ids))] once the identifiers are the
    integers [ids]. *)
Definition Product_objects_filter_id_in (db : Store) (ids : list Z)
  : list (Saved Product.t) :=
  filter (fun kp => Zpos kp.1 ∈ ids) (map_to_list (products db)).

(** [Order.objects.create(...)] *)
Definition Order_objects_create (db : Store) (o : Order.t) : Store * Saved Order.t :=
  let pk := fresh (dom (orders db)) in
  (mkStore (customers db) (products db) (<[pk := o]> (orders db)) (order_products db),
   (pk, o)).

(** [order.products.set(ps)]: afterwards the order is linked to exactly
    the products of [ps]. *)
Definition products_set (db : Store) (order_pk : PK) (ps : list (Saved Product.t))
  : Store :=
  mkStore (customers db) (products db) (orders db)
    (filter (fun l => l.1 <> order_pk) (order_products db)
       ∪ list_to_set ((fun kp => (order_pk, kp.1)) <$> ps)).

(** [order.products.all()] *)
Definition products_all (db : Store) (order_pk : PK) : list (Saved Product.t) :=
  filter (fun kp => (order_pk, kp.1) ∈ order_products db) (map_to_list (products db)).

(** The primary keys an order is linked to. *)
Definition linked_products (db : Store) (order_pk : PK) : gset positive :=
  set_map snd (filter (fun l => l.1 = order_pk) (order_products db)).

(** [enumerate(xs, start=n)] *)
Fixpoint enumerate {A} (start : nat) (xs : list A) : list (nat * A) :=
  match xs with
  | [] => []
  | x :: xs' => (start, x) :: enumerate (S start) xs'
  end.

(** ** The mutations ([schema.py]) *)

Section Mutations.

(** [django.core.validators.validate_email]: [true] when the address is
    accepted, [false] when [ValidationError] is raised. *)
Variable validate_email : string -> bool.

(** [CreateCustomer.mutate] *)
Definition CreateCustomer_mutate (db : Store) (input : CustomerInput.t)
  : Result (Store * Saved Customer.t * string) :=
  if negb (validate_email (CustomerInput.email input)) then
    Raise (GraphQLError "Invalid email format")
  else if email_exists db (CustomerInput.email input) then
    Raise (GraphQLError "Email already exists")
  else if phone_rejected (CustomerInput.phone input) then
    Raise (GraphQLError "Invalid phone format. Use +1234567890 or 123-456-7890")
  else
    let '(db', customer) :=
      Customer_objects_create db
        (Customer.mk (CustomerInput.name input) (CustomerInput.email input)
                     (CustomerInput.phone input)) in
    Return (db', customer, "Customer created successfully").

(** [f"Row {idx}: {text}"] *)
Definition row_error (idx : nat) (text : string) : string :=
  "Row " +:+ pretty idx +:+ ": " +:+ text.

(** One iteration of the loop of [BulkCreateCustomers.mutate]; the
    state is the store and the two lists the loop appends to. *)
Definition bulk_step (st : Store * list (Saved Customer.t) * list string)
    (row : nat * CustomerInput.t)
  : Store * list (Saved Customer.t) * list string :=
  let '(db, created_customers, errors) := st in
  let '(idx, cust) := row in
  if negb (validate_email (CustomerInput.email cust)) then
    (db, created_customers, errors ++ [row_error idx "Invalid email format"])
  else if email_exists db (CustomerInput.email cust) then
    (db, created_customers, errors ++ [row_error idx "Email already exists"])
  else if phone_rejected (CustomerInput.phone cust) then
    (db, created_customers, errors ++ [row_error idx "Invalid phone format"])
  else
    let '(db', customer) :=
      Customer_objects_create db
        (Customer.mk (CustomerInput.name cust) (CustomerInput.email cust)
                     (CustomerInput.phone cust)) in
    (db', created_customers ++ [customer], errors).

(** [BulkCreateCustomers.mutate].  No exception leaves the [with
    transaction.atomic()] block, so the block commits. *)
Definition BulkCreateCustomers_mutate (db : Store) (input : list CustomerInput.t)
  : Store * list (Saved Customer.t) * list string :=
  fold_left bulk_step (enumerate 1 input) (db, [], []).

End Mutations.

(** [CreateProduct.mutate] *)
Definition CreateProduct_mutate (db : Store) (input : ProductInput.t)
  : Result (Store * Saved Product.t * string) :=
  match Decimal_of_string (ProductInput.price input) with
  | None => Raise (GraphQLError "Invalid decimal format for price")
  | Some price =>
      match Decimal_le_zero price with
      | None => Raise InvalidOperation
      | Some true => Raise (GraphQLError "Price must be positive")
      | Some false =>
          if ProductInput.stock input <? 0 then
            Raise (GraphQLError "Stock cannot be negative")
          else
            match Product_objects_create db (ProductInput.name input) price
                    (ProductInput.stock input) with
            | Return (db', product) =>
                Return (db', product, "Product created successfully")
            | Raise e => Raise e
            end
      end
  end.

(** [CreateOrder.mutate]; [now] is the value of [timezone.now()].  The
    two lookups convert the identifiers they are given; the [try] around
    the first catches [Customer.DoesNotExist] only, and nothing is around
    the second, so a [ValueError] of either conversion leaves the
    resolver. *)
Definition CreateOrder_mutate (now : DateTime) (db : Store) (input : OrderInput.t)
  : Result (Store * Saved Order.t * string) :=
  match int_of_string (OrderInput.customer_id input) with
  | None => Raise ValueError
  | Some customer_id =>
      match Customer_objects_get db customer_id with
      | None => Raise (GraphQLError "Invalid customer ID")
      | Some customer =>
          match mapM int_of_string (OrderInput.product_ids input) with
          | None => Raise ValueError
          | Some product_ids =>
              let ps := Product_objects_filter_id_in db product_ids in
              if negb (length ps =? length (OrderInput.product_ids input))%nat then
                Raise (GraphQLError "Some product IDs are invalid")
              else
                match ps with
                | [] => Raise (GraphQLError "Order must include at least one product")
                | _ =>
                    let total_amount := py_sum (map (fun kp => Product.price kp.2) ps) in
                    let '(db1, order) :=
                      Order_objects_create db
                        (Order.mk customer.1 total_amount
                                  (default now (OrderInput.order_date input))) in
                    Return (products_set db1 order.1 ps, order,
                            "Order created successfully")
                end
          end
      end
  end.

(** [Order.calculate_total]; [self] is the instance the method is called
    on.  [save(update_fields=["total_amount"])] writes that one column of
    the row with the instance's primary key and fails when there is no
    such row. *)
Definition Order_calculate_total (db : Store) (self : Saved Order.t)
  : Result (Store * Saved Order.t * Finite) :=
  let total := py_sum (map (fun kp => Product.price kp.2) (products_all db self.1)) in
  let self' := (self.1, Order.with_total_amount self.2 total) in
  match orders db !! self.1 with
  | Some row =>
      Return
        (mkStore (customers db) (products db)
           (<[self.1 := Order.with_total_amount row total]> (orders db))
           (order_products db),
         self', total)
  | None => Raise DatabaseError
  end.

(** ** Notions used to state the properties *)

(** The customer row the identifier of an order input denotes, if it
    denotes one. *)
Definition OrderInput_customer (db : Store) (input : OrderInput.t)
  : option (Saved Customer.t) :=
  z ← int_of_string (OrderInput.customer_id input); Customer_objects_get db z.

(** The integers the product identifiers of an order input denote, when
    [int] accepts them all. *)
Definition OrderInput_product_ids (input : OrderInput.t) : option (list Z) :=
  mapM int_of_string (OrderInput.product_ids input).

(** The prices, in the store, of the products a list of identifiers
    resolves to. *)
Definition resolved_prices (db : Store) (ids : list PK) : list Finite :=
  omap (fun pk => Product.price <$> products db !! pk) ids.

(** The store a call leaves behind: untouched when the call raises. *)
Definition store_after {A B} (db : Store) (r : Result (Store * A * B)) : Store :=
  match r with
  | Return (db', _, _) => db'
  | Raise _ => db
  end.

(** A store with one customer and the two products of the specification's
    example, priced 10.00 and 5.50. *)
Definition example_store : Store :=
  mkStore
    {[ 1%positive := Customer.mk "Alice" "alice@example.com" (Some "+1234567890") ]}
    (<[ 2%positive := Product.mk "Mouse" None 50 (mkFinite 550 (-2)) ]>
       {[ 1%positive := Product.mk "Laptop" None 10 (mkFinite 1000 (-2)) ]})
    ∅ ∅.

(** A stand-in for [validate_email], used to run the examples only: it
    accepts the addresses that contain an [@]. *)
Definition example_validate_email (s : string) : bool :=
  bool_decide ("@"%char ∈ String.list_ascii_of_string s).

(** Modelled from the spec: a change of a product's price.  The source has
    no operation that updates a product; the specification speaks of
    "product price changes", that is a save of the product row with another
    [price]. *)
Definition Product_set_price (db : Store) (pk : PK) (price : Finite) : Store :=
  mkStore (customers db)
    (alter (fun p => Product.mk (Product.name p) (Product.description p)
                       (Product.stock p) price) pk (products db))
    (orders db) (order_products db).

(** The operations that act on the store, and the store each leaves. *)
Inductive Operation :=
  | OpCreateCustomer (input : CustomerInput.t)
  | OpBulkCreateCustomers (input : list CustomerInput.t)
  | OpCreateProduct (input : ProductInput.t)
  | OpCreateOrder (now : DateTime) (input : OrderInput.t)
  | OpSetPrice (pk : PK) (price : Finite)
  | OpCalculateTotal (self : Saved Order.t).

Definition exec (validate_email : string -> bool) (db : Store) (op : Operation)
  : Store :=
  match op with
  | OpCreateCustomer input => store_after db (CreateCustomer_mutate validate_email db input)
  | OpBulkCreateCustomers input => (BulkCreateCustomers_mutate validate_email db input).1.1
  | OpCreateProduct input => store_after db (CreateProduct_mutate db input)
  | OpCreateOrder now input => store_after db (CreateOrder_mutate now db input)
  | OpSetPrice pk price => Product_set_price db pk price
  | OpCalculateTotal self => store_after db (Order_calculate_total db self)
  end.

Definition is_calculate_total (op : Operation) : bool :=
  match op with
  | OpCalculateTotal _ => true
  | _ => false
  end.

(** The stores the operations can produce from the empty one. *)
Definition reachable (validate_email : string -> bool) (db : Store) : Prop :=
  exists ops : list Operation, fold_left (exec validate_email) ops empty_store = db.

(** No two customer rows share an e-mail address. *)
Definition emails_unique (db : Store) : Prop :=
  forall i j ci cj,
    customers db !! i = Some ci -> customers db !! j = Some cj ->
    Customer.email ci = Customer.email cj -> i = j.

(** Every stored e-mail address passed [validate_email]. *)
Definition emails_validated (validate_email : string -> bool) (db : Store) : Prop :=
  map_Forall (fun _ c => validate_email (Customer.email c) = true) (customers db).

(** [example_store] after an order of customer 1 for both products. *)
Definition example_order_store : Store :=
  store_after example_store
    (CreateOrder_mutate 0 example_store (OrderInput.mk "1" ["1"; "2"] None)).

Definition example_order : Saved Order.t :=
  (1%positive, Order.mk 1%positive (mkFinite 1550 (-2)) 0).

(** The two phone forms as the specification words them: [+<digits>], a
    plus sign followed by digits only, and [<digits>[-<digits>]*], groups
    of digits separated by hyphens. *)
Definition matches_plus_digits (s : string) : bool :=
  match s with
  | String c r => bool_decide (c = "+"%char) && isdigit r
  | EmptyString => false
  end.

(** [in_group] tells whether the group being read already has a digit. *)
Fixpoint digit_groups_from (in_group : bool) (s : string) : bool :=
  match s with
  | EmptyString => in_group
  | String c r =>
      if is_digit c then digit_groups_from true r
      else if bool_decide (c = "-"%char) then in_group && digit_groups_from false r
      else false
  end.

Definition matches_digit_groups (s : string) : bool := digit_groups_from false s.

(** The text a failed [CreateCustomer.mutate] leaves in the error list of
    the bulk mutation: the message, but for the phone format, where the
    bulk mutation has a shorter one. *)
Definition row_message (e : Exception) : string :=
  match e with
  | GraphQLError m =>
      if decide (m = "Invalid phone format. Use +1234567890 or 123-456-7890")
      then "Invalid phone format" else m
  | _ => ""
  end.

(** The loop of [BulkCreateCustomers.mutate] written as a recursion on
    the rows: each row goes through [CreateCustomer_mutate], the checks of
    the loop body being those of that resolver in the same order.
    [BulkCreateCustomers_mutate_rows] shows the two to agree. *)
Fixpoint bulk_rows (validate_email : string -> bool) (idx : nat) (db : Store)
    (rows : list CustomerInput.t) : Store * list (Saved Customer.t) * list string :=
  match rows with
  | [] => (db, [], [])
  | row :: rest =>
      match CreateCustomer_mutate validate_email db row with
      | Return (db1, customer, _) =>
          let '(db2, cs, es) := bulk_rows validate_email (S idx) db1 rest in
          (db2, customer :: cs, es)
      | Raise e =>
          let '(db2, cs, es) := bulk_rows validate_email (S idx) db rest in
          (db2, cs, row_error idx (row_message e) :: es)
      end
  end.

(** Modelled from the spec (3, 4.1, 4.2, 8): a phone number is valid
    when it is absent or has one of the two forms; customer creation
    checks the e-mail format, then its uniqueness, then the phone; bulk
    creation takes the rows in order, records [Row <i>: <reason>] for a
    row that fails a check, [i] counting from 1, and persists and collects
    the others.  The specification words one reason, "Email already
    exists"; the other two are worded as the code words them. *)
Definition spec_phone_valid (phone : option string) : bool :=
  match phone with
  | None => true
  | Some p => matches_plus_digits p || matches_digit_groups p
  end.

Definition spec_row_reason (validate_email : string -> bool) (db : Store)
    (row : CustomerInput.t) : option string :=
  if negb (validate_email (CustomerInput.email row)) then Some "Invalid email format"
  else if email_exists db (CustomerInput.email row) then Some "Email already exists"
  else if negb (spec_phone_valid (CustomerInput.phone row)) then Some "Invalid phone format"
  else None.

Fixpoint spec_bulk (validate_email : string -> bool) (i : nat) (db : Store)
    (rows : list CustomerInput.t) : Store * list (Saved Customer.t) * list string :=
  match rows with
  | [] => (db, [], [])
  | row :: rest =>
      match spec_row_reason validate_email db row with
      | Some reason =>
          let '(db', cs, es) := spec_bulk validate_email (S i) db rest in
          (db', cs, ("Row " +:+ pretty i +:+ ": " +:+ reason) :: es)
      | None =>
          let '(db1, customer) :=
            Customer_objects_create db
              (Customer.mk (CustomerInput.name row) (CustomerInput.email row)
                           (CustomerInput.phone row)) in
          let '(db', cs, es) := spec_bulk validate_email (S i) db1 rest in
          (db', customer :: cs, es)
      end
  end.

(** The customer row an input describes. *)
Definition customer_of_input (input : CustomerInput.t) : Customer.t :=
  Customer.mk (CustomerInput.name input) (CustomerInput.email input)
              (CustomerInput.phone input).

(** The two invariants of the customer table. *)
Definition customers_ok (validate_email : string -> bool) (db : Store) : Prop :=
  emails_validated validate_email db /\ emails_unique db.

(** The rows of the specification's bulk example: B repeats the address
    of A. *)
Definition example_row_A : CustomerInput.t :=
  CustomerInput.mk "Alice Johnson" "alice@example.com" (Some "+1234567890").
Definition example_row_B : CustomerInput.t :=
  CustomerInput.mk "Bob Smith" "alice@example.com" (Some "123-456-7890").
Definition example_row_C : CustomerInput.t :=
  CustomerInput.mk "Carol White" "carol@example.com" None.

(** The store after the creation of customer A alone. *)
Definition example_customer_store : Store :=
  exec example_validate_email empty_store (OpCreateCustomer example_row_A).

(** ** Invariants of the store *)

(** Referential integrity: an order belongs to a stored customer, and a
    row of the join table links a stored order to a stored product. *)
Definition references_ok (db : Store) : Prop :=
  (forall pk o, orders db !! pk = Some o ->
     is_Some (customers db !! Order.customer o)) /\
  (forall o p, (o, p) ∈ order_products db ->
     is_Some (orders db !! o) /\ is_Some (products db !! p)).

(** Every stored order is linked to at least one product. *)
Definition orders_nonempty (db : Store) : Prop :=
  forall pk o, orders db !! pk = Some o -> linked_products db pk <> ∅.

(** Every stored total denotes the sum of the prices that the products of
    its order have in the store. *)
Definition totals_consistent (db : Store) : Prop :=
  forall pk o, orders db !! pk = Some o ->
    (Finite_value (Order.total_amount o) ==
     exact_sum (resolved_prices db (elements (linked_products db pk))))%Q.

Definition is_set_price (op : Operation) : bool :=
  match op with
  | OpSetPrice _ _ => true
  | _ => false
  end.

(** The characters of a string. *)
Fixpoint chars (s : string) : list ascii :=
  match s with
  | EmptyString => []
  | String c r => c :: chars r
  end.

(** [s.isascii()].  On such text the [str] methods, [int] and [Decimal]
    are the functions defined above. *)
Definition isascii (s : string) : bool :=
  forallb (fun c => (nat_of_ascii c <? 128)%nat) (chars s).

(** What an operation may do to the store [db] it runs on, [db'] being the
    store it leaves: rows are added, a product row changes in its price
    only, an order row in its total only, and the links of a stored order
    stay the same. *)
Definition grows (set_price : bool) (db db' : Store) : Prop :=
  (forall k c, customers db !! k = Some c -> customers db' !! k = Some c) /\
  (forall k p, products db !! k = Some p ->
     exists p', products db' !! k = Some p' /\
       Product.name p' = Product.name p /\
       Product.description p' = Product.description p /\
       Product.stock p' = Product.stock p /\
       (set_price = false -> p' = p)) /\
  (forall k o, orders db !! k = Some o ->
     exists o', orders db' !! k = Some o' /\
       Order.customer o' = Order.customer o /\
       Order.order_date o' = Order.order_date o) /\
  (forall o p, is_Some (orders db !! o) ->
     (o, p) ∈ order_products db' <-> (o, p) ∈ order_products db).

(** What is new in [db'] is well formed: an order row that was not in
    [db] belongs to a customer of [db] and has a link, and a link that was
    not in [db] joins such an order to a product of [db]. *)
Definition adds_well (db db' : Store) : Prop :=
  (forall k o', orders db' !! k = Some o' ->
     is_Some (orders db !! k) \/
     (is_Some (customers db !! Order.customer o') /\
      exists p, (k, p) ∈ order_products db')) /\
  (forall o p, (o, p) ∈ order_products db' ->
     (o, p) ∈ order_products db \/
     (is_Some (orders db' !! o) /\ is_Some (products db !! p))).

(** The decimal columns hold what is stored in them: every price and
    every total of the store is read back as it was written. *)
Definition prices_held (db : Store) : Prop :=
  map_Forall (fun _ p => DecimalField_holds (Product.price p)) (products db).

Definition totals_held (db : Store) : Prop :=
  map_Forall (fun _ o => DecimalField_holds (Order.total_amount o)) (orders db).

(** An operation hands the store prices that the column holds only: a
    product is created from an ASCII price string, with such a price or
    not at all, and a price is changed to such a price. *)
Definition op_held (op : Operation) : Prop :=
  match op with
  | OpCreateProduct input =>
      isascii (ProductInput.price input) = true /\
      forall f, Decimal_of_string (ProductInput.price input) = Some (Fin f) ->
                0 < coef f -> DecimalField_holds f
  | OpSetPrice _ price => DecimalField_holds price
  | _ => True
  end.

(** * Properties *)

Example Decimal_parse_examples :
  Decimal_of_string "10.00" = Some (Fin (mkFinite 1000 (-2))) /\
  Decimal_of_string " -5.5 " = Some (Fin (mkFinite (-55) (-1))) /\
  Decimal_of_string "1_000" = Some (Fin (mkFinite 1000 0)) /\
  Decimal_of_string ".5e3" = Some (Fin (mkFinite 5 2)) /\
  Decimal_of_string "5." = Some (Fin (mkFinite 5 0)) /\
  Decimal_of_string "NaN" = Some (NaN false) /\
  Decimal_of_string "-Infinity" = Some (Inf true) /\
  Decimal_of_string "" = None /\
  Decimal_of_string "." = None /\
  Decimal_of_string "1e" = None /\
  Decimal_of_string "abc" = None /\
  Decimal_of_string "1.2.3" = None /\
  Decimal_of_string "1e999999999999999999" =
    Some (Fin (mkFinite 1 999999999999999999)) /\
  Decimal_of_string "1e1000000000000000000" = None /\
  Decimal_of_string "1e-1999999999999999998" = None.
Proof. vm_compute. repeat split. Qed.

Example int_parse_examples :
  int_of_string "1" = Some 1 /\
  int_of_string " 12 " = Some 12 /\
  int_of_string "-3" = Some (-3) /\
  int_of_string "+07" = Some 7 /\
  int_of_string "1_000" = Some 1000 /\
  int_of_string "1__0" = None /\
  int_of_string "_1" = None /\
  int_of_string "1_" = None /\
  int_of_string "" = None /\
  int_of_string "+" = None /\
  int_of_string "1.0" = None /\
  int_of_string "abc" = None.
Proof. vm_compute. repeat split. Qed.

(** ** Decimal addition is exact *)

Lemma ten_nonzero : ~ (inject_Z 10 == 0)%Q.
Proof. unfold Qeq; simpl; lia. Qed.

Lemma Qpower_ten_split (e d : Z) :
  (inject_Z 10 ^ e == inject_Z 10 ^ (e - d) * inject_Z 10 ^ d)%Q.
Proof.
  rewrite <- Qpower_plus by apply ten_nonzero.
  replace (e - d + d) with e by lia. reflexivity.
Qed.

Lemma Finite_value_add (a b : Finite) :
  (Finite_value (Finite_add a b) == Finite_value a + Finite_value b)%Q.
Proof.
  unfold Finite_value, Finite_add; simpl.
  set (e := Z.min (exp a) (exp b)).
  assert (0 <= exp a - e) by lia.
  assert (0 <= exp b - e) by lia.
  rewrite inject_Z_plus, !inject_Z_mult, !Zpower_Qpower by assumption.
  rewrite (Qpower_ten_split (exp a) e), (Qpower_ten_split (exp b) e).
  ring.
Qed.

Lemma fold_Finite_add_value (xs : list Finite) (acc : Finite) :
  (Finite_value (fold_left Finite_add xs acc) == Finite_value acc + exact_sum xs)%Q.
Proof.
  revert acc; induction xs as [|x xs IH]; intros acc; simpl.
  - ring.
  - rewrite IH, Finite_value_add. ring.
Qed.

Lemma py_sum_exact (xs : list Finite) :
  (Finite_value (py_sum xs) == exact_sum xs)%Q.
Proof.
  unfold py_sum. rewrite fold_Finite_add_value.
  unfold Finite_value; simpl. ring.
Qed.

Lemma exact_sum_Permutation (xs ys : list Finite) :
  xs ≡ₚ ys -> (exact_sum xs == exact_sum ys)%Q.
Proof.
  induction 1 as [|x xs ys _ IH|x y xs|xs ys zs _ IH1 _ IH2]; simpl.
  - reflexivity.
  - rewrite IH. reflexivity.
  - ring.
  - rewrite IH1. exact IH2.
Qed.

(** Operands that share a non-positive exponent keep it: the coefficients
    are added as integers. *)
Lemma fold_Finite_add_same_exp (e : Z) (xs : list Finite) (acc : Finite) :
  exp acc = e -> Forall (fun f => exp f = e) xs ->
  fold_left Finite_add xs acc =
  mkFinite (coef acc + foldr Z.add 0 (coef <$> xs)) e.
Proof.
  intros Hacc Hxs. revert acc Hacc.
  induction Hxs as [|x xs Hx _ IH]; intros acc Hacc; simpl.
  - destruct acc as [c e']; simpl in *. subst. f_equal. lia.
  - rewrite IH.
    + unfold Finite_add; simpl. rewrite Hacc, Hx, Z.min_id, Z.sub_diag. simpl.
      f_equal. rewrite Z.pow_0_r, !Z.mul_1_r. symmetry. apply Z.add_assoc.
    + unfold Finite_add; simpl. rewrite Hacc, Hx. apply Z.min_id.
Qed.

Lemma py_sum_same_exp (e : Z) (x : Finite) (xs : list Finite) :
  e <= 0 -> Forall (fun f => exp f = e) (x :: xs) ->
  py_sum (x :: xs) = mkFinite (foldr Z.add 0 (coef <$> x :: xs)) e.
Proof.
  intros He Hall.
  apply Forall_cons in Hall as [Hx Hxs].
  unfold py_sum; simpl.
  rewrite (fold_Finite_add_same_exp e); [|unfold Finite_add; simpl; lia|assumption].
  unfold Finite_add; simpl.
  rewrite Hx, Z.min_r, Z.sub_diag by lia. simpl.
  f_equal. rewrite Z.mul_0_l, Z.pow_0_r, Z.mul_1_r. reflexivity.
Qed.

(** ** The product query of [CreateOrder.mutate] *)



Section Query.
Variable db : Store.
Variable ids : list PK.

Local Abbreviation ps := (products_with_keys db ids).

Lemma filter_id_in_elem (pk : PK) (p : Product.t) :
  (pk, p) ∈ ps <-> pk ∈ ids /\ products db !! pk = Some p.
Proof.
  unfold ps, products_with_keys.
  rewrite list_elem_of_filter, elem_of_map_to_list. reflexivity.
Qed.

Lemma filter_id_in_key (pk : PK) :
  pk ∈ ps.*1 <-> pk ∈ ids /\ is_Some (products db !! pk).
Proof.
  rewrite list_elem_of_fmap. split.
  - intros [[k p] [-> Hin]]. apply filter_id_in_elem in Hin as [? ?]. eauto.
  - intros [Hin [p Hp]]. exists (pk, p). split; [done|].
    apply filter_id_in_elem; auto.
Qed.

Lemma filter_id_in_NoDup : NoDup ps.*1.
Proof.
  apply NoDup_fmap_fst.
  - intros k p1 p2 H1 H2.
    apply filter_id_in_elem in H1 as [_ H1], H2 as [_ H2]. congruence.
  - apply NoDup_filter, NoDup_map_to_list.
Qed.

Lemma filter_id_in_submseteq : ps.*1 ⊆+ ids.
Proof.
  apply NoDup_submseteq; [apply filter_id_in_NoDup|].
  intros pk Hpk. apply filter_id_in_key in Hpk. tauto.
Qed.

(** As many rows as identifiers: the rows are, up to order, the
    identifiers themselves. *)
Lemma filter_id_in_full :
  (length ids <= length ps)%nat -> ps.*1 ≡ₚ ids.
Proof.
  intros Hlen. apply submseteq_length_Permutation.
  - apply filter_id_in_submseteq.
  - by rewrite length_fmap.
Qed.

Lemma filter_id_in_missing (pk : PK) :
  pk ∈ ids -> products db !! pk = None -> (length ps < length ids)%nat.
Proof.
  intros Hin Hnone.
  destruct (decide (length ids <= length ps)%nat) as [Hle|]; [|lia].
  apply filter_id_in_full in Hle.
  rewrite <- Hle in Hin. apply filter_id_in_key in Hin as [_ [p Hp]].
  congruence.
Qed.



Lemma filter_id_in_prices :
  (fun kp => Product.price kp.2) <$> ps = resolved_prices db ps.*1.
Proof.
  unfold resolved_prices.
  assert (Forall (fun kp => products db !! kp.1 = Some kp.2) ps) as Hall.
  { apply Forall_forall. intros [k p] Hin.
    apply filter_id_in_elem in Hin. tauto. }
  induction Hall as [|[k p] l Hkp _ IH]; simpl; [done|].
  simpl in Hkp. rewrite Hkp. simpl. f_equal. exact IH.
Qed.

Lemma filter_id_in_full_prices :
  (length ids <= length ps)%nat ->
  (fun kp => Product.price kp.2) <$> ps ≡ₚ resolved_prices db ids.
Proof.
  intros Hlen. rewrite filter_id_in_prices.
  unfold resolved_prices. by rewrite (filter_id_in_full Hlen).
Qed.

End Query.

Lemma foldr_Zadd_Permutation (xs ys : list Z) :
  xs ≡ₚ ys -> foldr Z.add 0 xs = foldr Z.add 0 ys.
Proof.
  induction 1; simpl; lia.
Qed.

(** ** [CreateOrder.mutate] *)

(** *** Identifiers *)

Lemma pk_of_int_Some z pk : pk_of_int z = Some pk <-> z = Zpos pk.
Proof. destruct z; simpl; split; congruence. Qed.

Lemma omap_pk_of_int_pos (ids : list PK) : omap pk_of_int (Zpos <$> ids) = ids.
Proof. induction ids as [|pk ids IH]; csimpl; [done|]. by rewrite IH. Qed.

Lemma omap_pk_of_int_length (zs : list Z) :
  (length (omap pk_of_int zs) <= length zs)%nat.
Proof. induction zs as [|[|pk|pk] zs IH]; csimpl; lia. Qed.

Lemma omap_pk_of_int_full (zs : list Z) :
  (length zs <= length (omap pk_of_int zs))%nat ->
  zs = Zpos <$> omap pk_of_int zs.
Proof.
  induction zs as [|z zs IH]; [done|].
  pose proof (omap_pk_of_int_length zs).
  destruct z as [|pk|pk]; csimpl; intros Hlen; [lia| |lia].
  f_equal. apply IH. lia.
Qed.

(** The query by integers is the query by the keys among them. *)
Lemma Product_objects_filter_id_in_keys db (zs : list Z) :
  Product_objects_filter_id_in db zs = products_with_keys db (omap pk_of_int zs).
Proof.
  unfold Product_objects_filter_id_in, products_with_keys.
  apply list_filter_iff. intros [k p]; simpl.
  rewrite list_elem_of_omap. split.
  - intros Hin. exists (Zpos k). by split.
  - intros (z & Hin & Hz). apply pk_of_int_Some in Hz. by subst z.
Qed.

Lemma Product_objects_filter_id_in_pos db (ids : list PK) :
  Product_objects_filter_id_in db (Zpos <$> ids) = products_with_keys db ids.
Proof. by rewrite Product_objects_filter_id_in_keys, omap_pk_of_int_pos. Qed.

(** The query returns as many rows as it is given integers only when the
    integers are keys. *)
Lemma Product_objects_filter_id_in_full db (zs : list Z) :
  (length zs <= length (Product_objects_filter_id_in db zs))%nat ->
  exists ids : list PK, zs = Zpos <$> ids.
Proof.
  rewrite Product_objects_filter_id_in_keys. intros Hlen.
  exists (omap pk_of_int zs). apply omap_pk_of_int_full.
  pose proof (filter_id_in_submseteq db (omap pk_of_int zs)) as Hsub.
  apply submseteq_length in Hsub. rewrite length_fmap in Hsub.
  exact (Nat.le_trans _ _ _ Hlen Hsub).
Qed.

Lemma Customer_objects_get_Some db z customer :
  Customer_objects_get db z = Some customer <->
  z = Zpos customer.1 /\ customers db !! customer.1 = Some customer.2.
Proof.
  unfold Customer_objects_get. destruct customer as [pk c]; simpl.
  destruct z as [|k|k]; simpl;
    [split; [done|by intros [? _]]| |split; [done|by intros [? _]]].
  destruct (customers db !! k) as [c'|] eqn:Hk; simpl.
  - split.
    + by intros [= -> ->].
    + intros [[= ->] Hc].
      assert (Some c' = Some c) as [= ->] by (rewrite <- Hk; exact Hc). done.
  - split; [done|]. intros [[= ->] Hc].
    assert (@None Customer.t = Some c) by (rewrite <- Hk; exact Hc). done.
Qed.

Lemma Customer_objects_get_pos db (pk : PK) :
  Customer_objects_get db (Zpos pk) = (fun c => (pk, c)) <$> customers db !! pk.
Proof. unfold Customer_objects_get; simpl. by destruct (customers db !! pk). Qed.

(** What the checks of [CreateOrder.mutate] leave when they pass: the
    identifiers denote keys, and the order is made of the rows with these
    keys. *)
Lemma CreateOrder_mutate_Return now db input db' order message :
  CreateOrder_mutate now db input = Return (db', order, message) ->
  exists (customer : PK) (ids : list PK),
    int_of_string (OrderInput.customer_id input) = Some (Zpos customer) /\
    mapM int_of_string (OrderInput.product_ids input) = Some (Zpos <$> ids) /\
    let ps := products_with_keys db ids in
    let o := Order.mk customer
               (py_sum ((fun kp => Product.price kp.2) <$> ps))
               (default now (OrderInput.order_date input)) in
    is_Some (customers db !! customer) /\
    length ps = length ids /\ ps <> [] /\
    order = (fresh (dom (orders db)), o) /\
    db' = products_set (Order_objects_create db o).1 order.1 ps /\
    message = "Order created successfully".
Proof.
  intros Hrun. unfold CreateOrder_mutate in Hrun.
  destruct (int_of_string (OrderInput.customer_id input)) as [z|] eqn:Hz; [|done].
  destruct (Customer_objects_get db z) as [[pk c]|] eqn:Hc; [|done].
  apply Customer_objects_get_Some in Hc as [-> Hc]; simpl in Hc.
  destruct (mapM int_of_string (OrderInput.product_ids input)) as [zs|] eqn:Hzs;
    [|done].
  pose proof (length_mapM _ _ _ Hzs) as Hraw.
  destruct (Nat.eqb_spec (length (Product_objects_filter_id_in db zs))
              (length (OrderInput.product_ids input))) as [Hlen|Hlen];
    simpl in Hrun; [|done].
  destruct (Product_objects_filter_id_in_full db zs) as [ids ->];
    [rewrite Hlen, Hraw; apply Nat.le_refl|].
  rewrite Product_objects_filter_id_in_pos in Hrun, Hlen.
  rewrite length_fmap in Hraw.
  destruct (products_with_keys db ids) as [|kp ps] eqn:Hps; [done|].
  simpl in Hrun. injection Hrun as <- <- <-.
  exists pk, ids. rewrite Hps. simpl.
  split; [done|]. split; [done|]. split; [by eexists|].
  split; [exact (eq_trans Hlen Hraw)|]. done.
Qed.

Lemma linked_products_set db pk ps :
  linked_products (products_set db pk ps) pk = list_to_set ps.*1.
Proof.
  unfold linked_products, products_set; simpl.
  apply set_eq. intros x.
  rewrite elem_of_map, elem_of_list_to_set, list_elem_of_fmap.
  split.
  - intros [[o k] [-> Hin]].
    apply elem_of_filter in Hin as [Ho Hin]. simpl in Ho. subst o.
    apply elem_of_union in Hin as [Hin|Hin].
    + apply elem_of_filter in Hin as [Hne _]. done.
    + apply elem_of_list_to_set, list_elem_of_fmap in Hin as [kp [Heq Hin]].
      exists kp. split; [by simplify_eq/=|done].
  - intros [kp [-> Hin]]. exists (pk, kp.1). split; [done|].
    apply elem_of_filter. split; [done|].
    apply elem_of_union_r, elem_of_list_to_set, list_elem_of_fmap. eauto.
Qed.

(** C1. A successful [createOrder] call stores an order whose
    [total_amount] denotes exactly the sum of the current prices of the
    products the identifiers resolve to: as rational numbers, and, for
    prices held with two decimal places, digit for digit (10.00 and 5.50
    give 15.50).  The identifiers denote the keys [ids] of stored products
    and the key of a stored customer; the order is a new row of the store,
    it carries that total, and it is linked to exactly the requested
    products. *)
Theorem CreateOrder_total_amount_exact now db input db' order message :
  CreateOrder_mutate now db input = Return (db', order, message) ->
  exists ids : list PK,
    OrderInput_product_ids input = Some (Zpos <$> ids) /\
    is_Some (OrderInput_customer db input) /\
    Forall (fun pk => is_Some (products db !! pk)) ids /\
    (Finite_value (Order.total_amount order.2) == exact_sum (resolved_prices db ids))%Q /\
    (Forall (fun f => exp f = -2) (resolved_prices db ids) ->
     Order.total_amount order.2 =
     mkFinite (foldr Z.add 0 (coef <$> resolved_prices db ids)) (-2)) /\
    orders db !! order.1 = None /\
    orders db' !! order.1 = Some order.2 /\
    linked_products db' order.1 = list_to_set ids /\
    products db' = products db.
Proof.
  intros Hrun.
  apply CreateOrder_mutate_Return in Hrun
    as (customer & ids & Hcid & Hids & Hcust & Hlen & Hne & -> & -> & _).
  set (ps := products_with_keys db ids) in *.
  assert (length ids <= length ps)%nat as Hle by lia.
  pose proof (filter_id_in_full db ids Hle) as Hkeys.
  pose proof (filter_id_in_full_prices db ids Hle) as Hprices.
  fold ps in Hkeys, Hprices.
  exists ids. simpl.
  split; [exact Hids|]. split.
  { unfold OrderInput_customer. rewrite Hcid. simpl.
    rewrite Customer_objects_get_pos. destruct Hcust as [c ->]. by eexists. }
  repeat split.
  - apply Forall_forall. intros pk Hin. rewrite <- Hkeys in Hin.
    apply filter_id_in_key in Hin. tauto.
  - rewrite py_sum_exact. by apply exact_sum_Permutation.
  - intros Hexp. rewrite <- Hprices in Hexp.
    rewrite <- (foldr_Zadd_Permutation _ _ (fmap_Permutation coef _ _ Hprices)).
    destruct ps as [|kp ps']; [done|].
    apply (py_sum_same_exp (-2)); [lia|exact Hexp].
  - apply not_elem_of_dom, is_fresh.
  - apply lookup_insert_eq.
  - rewrite linked_products_set. apply set_eq. intros pk.
    rewrite !elem_of_list_to_set. by rewrite Hkeys.
Qed.

Lemma CreateOrder_total_amount_exact_witness :
  let input := OrderInput.mk "1" ["1"; "2"] None in
  exists db' order,
    CreateOrder_mutate 0 example_store input =
      Return (db', order, "Order created successfully") /\
    Order.total_amount order.2 = mkFinite 1550 (-2) /\
    orders db' !! order.1 = Some order.2 /\
    linked_products db' order.1 = {[ 1%positive; 2%positive ]}.
Proof.
  intros input.
  destruct (CreateOrder_mutate 0 example_store input) as [[[db' order] message]|e] eqn:Hrun;
    [|vm_compute in Hrun; discriminate].
  pose proof (CreateOrder_total_amount_exact 0 example_store input db' order message Hrun)
    as (ids & Hids & _ & _ & _ & Htotal & _ & Hrow & Hlinks & _).
  assert (ids = [1%positive; 2%positive]) as ->.
  { vm_compute in Hids. injection Hids as Hids.
    destruct ids as [|a [|b [|c ids]]]; simplify_eq/=; done. }
  exists db', order. split; [|split; [|split]].
  - f_equal. vm_compute in Hrun. by injection Hrun as _ _ <-.
  - rewrite Htotal; [reflexivity|]. vm_compute. repeat constructor.
  - exact Hrow.
  - rewrite Hlinks. apply set_eq. intros pk. set_solver.
Defined.


(** C2 fails on the code at an identifier that is not a number.  Such an
    identifier (ASCII text that [int] refuses) resolves to no product, and
    it makes the call end with a [ValueError] that the resolver does not
    catch, not with the [NotFoundError] of an unresolved product: with a
    customer that resolves, the product identifiers ["1"; "abc"] leave the
    resolver through no [GraphQLError] at all.  Nothing is written. *)
Theorem CreateOrder_malformed_product_identifier now db input s :
  is_Some (OrderInput_customer db input) ->
  s ∈ OrderInput.product_ids input ->
  isascii s = true ->
  int_of_string s = None ->
  let r := CreateOrder_mutate now db input in
  r = Raise ValueError /\
  error_kind r = None /\
  store_after db r = db.
Proof.
  intros [customer Hc] Hin _ Hs r; subst r.
  unfold OrderInput_customer in Hc. unfold CreateOrder_mutate.
  destruct (int_of_string (OrderInput.customer_id input)) as [z|]; [|done].
  simpl in Hc. rewrite Hc.
  assert (mapM int_of_string (OrderInput.product_ids input) = None) as ->.
  { apply mapM_None, Exists_exists. eauto. }
  done.
Qed.

Lemma CreateOrder_malformed_product_identifier_witness :
  let input := OrderInput.mk "1" ["1"; "abc"] None in
  let r := CreateOrder_mutate 0 example_store input in
  products example_store !! 1%positive =
    Some (Product.mk "Laptop" None 10 (mkFinite 1000 (-2))) /\
  r = Raise ValueError /\
  error_kind r = None /\
  store_after example_store r = example_store.
Proof.
  intros input r. split; [reflexivity|].
  apply (CreateOrder_malformed_product_identifier 0 example_store input "abc").
  - by exists (1%positive, Customer.mk "Alice" "alice@example.com" (Some "+1234567890")).
  - simpl. apply list_elem_of_further, list_elem_of_here.
  - reflexivity.
  - reflexivity.
Defined.







(** ** [Order.calculate_total] *)

Lemma elem_of_linked_products db order_pk pk :
  pk ∈ linked_products db order_pk <-> (order_pk, pk) ∈ order_products db.
Proof.
  unfold linked_products. rewrite elem_of_map. split.
  - intros [[o k] [-> Hin]]. apply elem_of_filter in Hin as [Ho Hin].
    simpl in *. by subst o.
  - intros Hin. exists (order_pk, pk). split; [done|].
    by apply elem_of_filter.
Qed.

(** [order.products.all()] is the product query on the linked keys. *)
Lemma products_all_filter_id_in db order_pk :
  products_all db order_pk =
  products_with_keys db (elements (linked_products db order_pk)).
Proof.
  unfold products_all, products_with_keys.
  apply list_filter_iff. intros [k p]; simpl.
  by rewrite elem_of_elements, elem_of_linked_products.
Qed.

Lemma resolved_prices_filter db (ids : list PK) :
  resolved_prices db (filter (fun k => is_Some (products db !! k)) ids) =
  resolved_prices db ids.
Proof.
  unfold resolved_prices. induction ids as [|k ids IH]; [done|].
  rewrite filter_cons. destruct (decide (is_Some (products db !! k))) as [[p Hp]|Hn]; simpl.
  - rewrite Hp; simpl. by f_equal.
  - destruct (products db !! k) eqn:Hk; [destruct Hn; eauto|]. simpl. exact IH.
Qed.

(** Dangling keys aside, the rows of the query are the listed keys. *)
Lemma filter_id_in_prices_NoDup db (ids : list PK) :
  NoDup ids ->
  (fun kp => Product.price kp.2) <$> products_with_keys db ids
  ≡ₚ resolved_prices db ids.
Proof.
  intros Hnd. rewrite filter_id_in_prices, <- (resolved_prices_filter db ids).
  unfold resolved_prices. apply omap_Permutation.
  apply NoDup_Permutation.
  - apply filter_id_in_NoDup.
  - by apply NoDup_filter.
  - intros k. rewrite filter_id_in_key, list_elem_of_filter. tauto.
Qed.

Lemma products_all_exact db order_pk :
  (Finite_value (py_sum ((fun kp => Product.price kp.2) <$> products_all db order_pk))
   == exact_sum (resolved_prices db (elements (linked_products db order_pk))))%Q.
Proof.
  rewrite py_sum_exact, products_all_filter_id_in.
  apply exact_sum_Permutation, filter_id_in_prices_NoDup, NoDup_elements.
Qed.

Lemma Order_calculate_total_Return db (self : Saved Order.t) row :
  orders db !! self.1 = Some row ->
  let total := py_sum ((fun kp => Product.price kp.2) <$> products_all db self.1) in
  Order_calculate_total db self =
  Return
    (mkStore (customers db) (products db)
       (<[self.1 := Order.with_total_amount row total]> (orders db))
       (order_products db),
     (self.1, Order.with_total_amount self.2 total), total).
Proof.
  intros Hrow total. unfold Order_calculate_total. by rewrite Hrow.
Qed.

(** The operations other than [calculate_total] leave the rows of the
    order table as they are. *)
Lemma bulk_step_orders validate_email st row :
  orders (bulk_step validate_email st row).1.1 = orders st.1.1.
Proof.
  destruct st as [[db cs] es], row as [idx cust].
  unfold bulk_step, Customer_objects_create.
  repeat case_match; done.
Qed.

Lemma fold_bulk_step_orders validate_email rows st :
  orders (fold_left (bulk_step validate_email) rows st).1.1 = orders st.1.1.
Proof.
  revert st. induction rows as [|row rows IH]; intros st; simpl; [done|].
  by rewrite IH, bulk_step_orders.
Qed.

Lemma exec_keeps_orders validate_email db op pk o :
  is_calculate_total op = false ->
  orders db !! pk = Some o ->
  orders (exec validate_email db op) !! pk = Some o.
Proof.
  intros Hop Ho. destruct op as [input|input|input|now input|k price|self];
    simpl in *; try done.
  - unfold CreateCustomer_mutate, Customer_objects_create.
    repeat case_match; done.
  - unfold BulkCreateCustomers_mutate. by rewrite fold_bulk_step_orders.
  - unfold CreateProduct_mutate, Product_objects_create.
    repeat case_match; simplify_eq/=; done.
  - destruct (CreateOrder_mutate now db input) as [[[db' order] m]|e] eqn:Hrun;
      [|done].
    apply CreateOrder_mutate_Return in Hrun as (customer & ids & _ & _ & _ & _ & _ & -> & -> & _).
    simpl. rewrite lookup_insert_ne; [done|].
    intros <-. pose proof (is_fresh (dom (orders db))) as Hfresh.
    apply Hfresh, elem_of_dom. eauto.
Qed.

(** C8. Calling [calculate_total] on a stored order always returns: the
    value returned, and stored as the order's [total_amount], denotes the
    sum of the prices the linked products have in the store at that
    moment.  Every other operation, a change of a product's price
    included, leaves the stored totals of the existing orders as they
    are. *)
Theorem Order_calculate_total_recomputes :
  (forall db (self : Saved Order.t) row,
     orders db !! self.1 = Some row ->
     exists db' self' total,
       Order_calculate_total db self = Return (db', self', total) /\
       (Finite_value total ==
        exact_sum (resolved_prices db (elements (linked_products db self.1))))%Q /\
       Order.total_amount <$> orders db' !! self.1 = Some total /\
       Order.total_amount self'.2 = total) /\
  (forall validate_email db op pk o,
     is_calculate_total op = false ->
     orders db !! pk = Some o ->
     orders (exec validate_email db op) !! pk = Some o).
Proof.
  split.
  - intros db self row Hrow.
    rewrite (Order_calculate_total_Return db self row Hrow).
    eexists _, _, _. split; [reflexivity|]. simpl.
    split; [apply products_all_exact|].
    split; [|done]. by rewrite lookup_insert_eq.
  - apply exec_keeps_orders.
Qed.

(** C10. On a stored order [calculate_total] returns the value it stores,
    and writes nothing else: the order keeps its customer, its date and
    its products, and the customers, the products, the links and the
    other orders of the store are untouched. *)
Theorem Order_calculate_total_frame db (self : Saved Order.t) row :
  orders db !! self.1 = Some row ->
  exists db' self' total,
    Order_calculate_total db self = Return (db', self', total) /\
    Order.total_amount self'.2 = total /\
    orders db' !! self.1 = Some (Order.mk (Order.customer row) total (Order.order_date row)) /\
    self'.1 = self.1 /\
    Order.customer self'.2 = Order.customer self.2 /\
    Order.order_date self'.2 = Order.order_date self.2 /\
    linked_products db' self.1 = linked_products db self.1 /\
    customers db' = customers db /\
    products db' = products db /\
    order_products db' = order_products db /\
    (forall pk, pk <> self.1 -> orders db' !! pk = orders db !! pk).
Proof.
  intros Hrow. rewrite (Order_calculate_total_Return db self row Hrow).
  eexists _, _, _. split; [reflexivity|]. simpl.
  repeat split; try done.
  - by rewrite lookup_insert_eq.
  - intros pk Hne. by rewrite lookup_insert_ne.
Qed.

Lemma example_order_stored :
  orders example_order_store !! example_order.1 = Some example_order.2.
Proof. vm_compute. reflexivity. Qed.

Lemma Order_calculate_total_recomputes_witness :
  let db1 := exec example_validate_email example_order_store
               (OpSetPrice 2%positive (mkFinite 725 (-2))) in
  orders db1 !! example_order.1 = Some example_order.2 /\
  exists db' self' total,
    Order_calculate_total db1 example_order = Return (db', self', total) /\
    total = mkFinite 1725 (-2) /\
    Order.total_amount <$> orders db' !! example_order.1 = Some total.
Proof.
  intros db1.
  destruct Order_calculate_total_recomputes as [Hcalc Hkeep].
  assert (orders db1 !! example_order.1 = Some example_order.2) as Hrow.
  { apply Hkeep; [reflexivity|apply example_order_stored]. }
  split; [exact Hrow|].
  destruct (Hcalc db1 example_order _ Hrow) as (db' & self' & total & Hrun & _ & Hstored & _).
  exists db', self', total. split; [exact Hrun|]. split; [|exact Hstored].
  vm_compute in Hrun. by injection Hrun as _ _ <-.
Defined.

Lemma Order_calculate_total_frame_witness :
  exists db' self' total,
    Order_calculate_total example_order_store example_order = Return (db', self', total) /\
    total = mkFinite 1550 (-2) /\
    Order.total_amount self'.2 = total /\
    orders db' !! 1%positive = Some (Order.mk 1%positive total 0) /\
    linked_products db' 1%positive = linked_products example_order_store 1%positive /\
    products db' = products example_order_store.
Proof.
  destruct (Order_calculate_total_frame example_order_store example_order
              example_order.2 example_order_stored)
    as (db' & self' & total & Hrun & Hself & Hrow & _ & _ & _ & Hlinks & _ & Hprod & _).
  exists db', self', total.
  repeat split; try assumption.
  vm_compute in Hrun. by injection Hrun as _ _ <-.
Defined.

(** ** [CreateProduct.mutate] *)

(** C7 fails on the code at the price string ["NaN"].  The string is a
    valid [Decimal] literal, so no format error is raised; the comparison
    [price <= 0] then raises [decimal.InvalidOperation], which the method
    does not catch.  The call ends with none of the errors of the claim
    and stores nothing, whatever the stock. *)
Theorem CreateProduct_NaN_price db name stock :
  let r := CreateProduct_mutate db (ProductInput.mk name "NaN" stock) in
  Decimal_of_string "NaN" = Some (NaN false) /\
  r = Raise InvalidOperation /\
  error_kind r = None /\
  store_after db r = db.
Proof. repeat split. Qed.

(** X1. What the method does when the price string denotes a number: a
    value that is not positive and a negative stock are refused, in that
    order; otherwise, for a price that the column holds (at most two
    decimal places and ten digits), a new product row holds the parsed
    price and the given stock, and the other tables are untouched. *)
Theorem CreateProduct_finite_price db input f :
  Decimal_of_string (ProductInput.price input) = Some (Fin f) ->
  let r := CreateProduct_mutate db input in
  (coef f <= 0 -> r = Raise (GraphQLError "Price must be positive")) /\
  (0 < coef f -> ProductInput.stock input < 0 ->
   r = Raise (GraphQLError "Stock cannot be negative")) /\
  (0 < coef f -> 0 <= ProductInput.stock input -> DecimalField_holds f ->
   exists db' pk,
     let p := Product.mk (ProductInput.name input) None (ProductInput.stock input) f in
     r = Return (db', (pk, p), "Product created successfully") /\
     products db !! pk = None /\
     products db' = <[pk := p]> (products db) /\
     customers db' = customers db /\ orders db' = orders db /\
     order_products db' = order_products db).
Proof.
  intros Hparse r; subst r. unfold CreateProduct_mutate. rewrite Hparse. simpl.
  repeat split.
  - intros Hle. by rewrite (proj2 (Z.leb_le _ _) Hle).
  - intros Hpos Hneg.
    rewrite (proj2 (Z.leb_gt _ _) Hpos), (proj2 (Z.ltb_lt _ _) Hneg). done.
  - intros Hpos Hstock _.
    rewrite (proj2 (Z.leb_gt _ _) Hpos), (proj2 (Z.ltb_ge _ _) Hstock).
    eexists _, _. repeat split.
    apply not_elem_of_dom, is_fresh.
Qed.

Lemma CreateProduct_finite_price_witness :
  exists db' pk,
    CreateProduct_mutate example_store (ProductInput.of_fields "Keyboard" "45.75" None) =
      Return (db', (pk, Product.mk "Keyboard" None 0 (mkFinite 4575 (-2))),
              "Product created successfully") /\
    products db' !! pk = Some (Product.mk "Keyboard" None 0 (mkFinite 4575 (-2))).
Proof.
  destruct (CreateProduct_finite_price example_store
              (ProductInput.of_fields "Keyboard" "45.75" None) (mkFinite 4575 (-2)))
    as (_ & _ & Hok); [reflexivity|].
  destruct Hok as (db' & pk & Hrun & _ & Hprod & _);
    [simpl; lia|simpl; lia|unfold DecimalField_holds; simpl; lia|].
  exists db', pk. split; [exact Hrun|].
  rewrite Hprod. apply lookup_insert_eq.
Defined.

(** ** [CreateCustomer.mutate] *)

Lemma email_exists_true db e :
  email_exists db e = true <->
  exists pk c, customers db !! pk = Some c /\ Customer.email c = e.
Proof.
  unfold email_exists. rewrite bool_decide_eq_true. apply map_Exists_lookup.
Qed.

Lemma email_exists_false db e :
  email_exists db e = false <->
  forall pk c, customers db !! pk = Some c -> Customer.email c <> e.
Proof.
  rewrite <- not_true_iff_false, email_exists_true. split.
  - intros Hno pk c Hlook He. apply Hno. eauto.
  - intros Hall (pk & c & Hlook & He). by apply (Hall pk c).
Qed.

Lemma email_exists_create db c e :
  email_exists (Customer_objects_create db c).1 e = true <->
  Customer.email c = e \/ email_exists db e = true.
Proof.
  rewrite !email_exists_true. unfold Customer_objects_create; simpl.
  pose proof (is_fresh (dom (customers db))) as Hfresh.
  apply not_elem_of_dom in Hfresh.
  split.
  - intros (pk & c' & Hlook & He).
    apply lookup_insert_Some in Hlook as [[_ <-]|[_ Hlook]]; eauto.
  - intros [He|(pk & c' & Hlook & He)].
    + eexists _, c. by rewrite lookup_insert_eq.
    + exists pk, c'. split; [|done].
      rewrite lookup_insert_ne; [done|]. intros <-. congruence.
Qed.

(** A string made of digit groups keeps at least one digit, and digits
    only, once its hyphens are removed. *)
Lemma digit_groups_from_digits (g : bool) (s : string) :
  digit_groups_from g s = true ->
  all_digits (remove_hyphens s) = true /\
  (g = true \/ remove_hyphens s <> EmptyString).
Proof.
  revert g. induction s as [|c r IH]; intros g; simpl.
  - intros ->. auto.
  - destruct (is_digit c) eqn:Hc.
    + intros Hr. apply IH in Hr as [Hall _].
      case_bool_decide as Hhy; [subst c; done|].
      simpl. rewrite Hc, Hall. auto.
    + case_bool_decide as Hhy; [|done].
      intros [-> Hr]%andb_true_iff. apply IH in Hr as [Hall [?|Hne]]; [done|].
      auto.
Qed.

(** X3. The phone check never rejects a phone of either form of the
    specification, nor an omitted one. *)
Theorem phone_rejected_sound (phone : option string) :
  phone_rejected phone = true ->
  exists p, phone = Some p /\
    matches_plus_digits p = false /\ matches_digit_groups p = false.
Proof.
  destruct phone as [p|]; [|done]. simpl.
  intros [_ Hrej%negb_true_iff]%andb_true_iff.
  apply orb_false_iff in Hrej as [Hplus Hdig].
  exists p. split; [done|]. split.
  - destruct p as [|c r]; [done|]. simpl in *. by rewrite Hplus.
  - destruct (matches_digit_groups p) eqn:Hm; [|done].
    apply digit_groups_from_digits in Hm as [Hall [?|Hne]]; [done|].
    unfold isdigit in Hdig. destruct (remove_hyphens p); [done|congruence].
Qed.

Lemma phone_rejected_sound_witness :
  exists p, Some "12a" = Some p /\
    matches_plus_digits p = false /\ matches_digit_groups p = false.
Proof. apply (phone_rejected_sound (Some "12a")). reflexivity. Defined.

Section Customers.

Variable validate_email : string -> bool.

Lemma CreateCustomer_mutate_cases db input :
  let r := CreateCustomer_mutate validate_email db input in
  let e := CustomerInput.email input in
  (validate_email e = false -> r = Raise (GraphQLError "Invalid email format")) /\
  (validate_email e = true -> email_exists db e = true ->
   r = Raise (GraphQLError "Email already exists")) /\
  (validate_email e = true -> email_exists db e = false ->
   phone_rejected (CustomerInput.phone input) = true ->
   r = Raise (GraphQLError "Invalid phone format. Use +1234567890 or 123-456-7890")) /\
  (validate_email e = true -> email_exists db e = false ->
   phone_rejected (CustomerInput.phone input) = false ->
   r = Return ((Customer_objects_create db (customer_of_input input)).1,
               (Customer_objects_create db (customer_of_input input)).2,
               "Customer created successfully")).
Proof.
  intros r e; subst r e. unfold CreateCustomer_mutate.
  repeat split.
  - by intros ->.
  - by intros -> ->.
  - by intros -> -> ->.
  - by intros -> -> ->.
Qed.

Local Abbreviation ok := (customers_ok validate_email).

Lemma Customer_objects_create_ok db c :
  ok db ->
  validate_email (Customer.email c) = true ->
  email_exists db (Customer.email c) = false ->
  ok (Customer_objects_create db c).1.
Proof.
  intros [Hval Huniq] Hc Hnew.
  rewrite email_exists_false in Hnew.
  unfold Customer_objects_create; simpl. split.
  - unfold emails_validated; simpl. by apply map_Forall_insert_2.
  - intros i j ci cj; simpl. intros Hi Hj Heq.
    apply lookup_insert_Some in Hi as [[<- <-]|[Hni Hi]],
          Hj as [[<- <-]|[Hnj Hj]]; try done.
    + by destruct (Hnew _ _ Hj).
    + by destruct (Hnew _ _ Hi).
    + by apply (Huniq i j ci cj).
Qed.

Lemma CreateCustomer_mutate_ok db input :
  ok db ->
  ok (store_after db (CreateCustomer_mutate validate_email db input)).
Proof.
  intros Hok.
  destruct (CreateCustomer_mutate_cases db input) as (H1 & H2 & H3 & H4).
  destruct (validate_email (CustomerInput.email input)) eqn:Hv;
    [|by rewrite H1].
  destruct (email_exists db (CustomerInput.email input)) eqn:He;
    [by rewrite H2|].
  destruct (phone_rejected (CustomerInput.phone input)) eqn:Hp;
    [by rewrite H3|].
  rewrite H4 by done. simpl. by apply Customer_objects_create_ok.
Qed.

Lemma bulk_step_CreateCustomer db cs es idx row :
  bulk_step validate_email (db, cs, es) (idx, row) =
  match CreateCustomer_mutate validate_email db row with
  | Return (db1, c, _) => (db1, cs ++ [c], es)
  | Raise e => (db, cs, es ++ [row_error idx (row_message e)])
  end.
Proof.
  unfold bulk_step, CreateCustomer_mutate.
  destruct (validate_email (CustomerInput.email row)); simpl; [|done].
  destruct (email_exists db (CustomerInput.email row)); [done|].
  destruct (phone_rejected (CustomerInput.phone row)); done.
Qed.

Lemma fold_bulk_step rows : forall idx db cs0 es0,
  fold_left (bulk_step validate_email) (enumerate idx rows) (db, cs0, es0) =
  let '(db', cs, es) := bulk_rows validate_email idx db rows in
  (db', cs0 ++ cs, es0 ++ es).
Proof.
  induction rows as [|row rows IH]; intros idx db cs0 es0;
    cbn [enumerate fold_left bulk_rows].
  - by rewrite !app_nil_r.
  - rewrite bulk_step_CreateCustomer.
    destruct (CreateCustomer_mutate validate_email db row) as [[[db1 c] m]|e].
    + rewrite IH. destruct (bulk_rows validate_email (S idx) db1 rows) as [[db2 cs] es].
      by rewrite <- app_assoc.
    + rewrite IH. destruct (bulk_rows validate_email (S idx) db rows) as [[db2 cs] es].
      by rewrite <- app_assoc.
Qed.

Lemma bulk_rows_ok rows : forall idx db,
  ok db -> ok (bulk_rows validate_email idx db rows).1.1.
Proof.
  induction rows as [|row rows IH]; intros idx db Hok; simpl; [done|].
  pose proof (CreateCustomer_mutate_ok db row Hok) as Hstep.
  destruct (CreateCustomer_mutate validate_email db row) as [[[db1 c] m]|e];
    simpl in Hstep.
  - specialize (IH (S idx) db1 Hstep).
    by destruct (bulk_rows validate_email (S idx) db1 rows) as [[db2 cs] es].
  - specialize (IH (S idx) db Hok).
    by destruct (bulk_rows validate_email (S idx) db rows) as [[db2 cs] es].
Qed.

Lemma BulkCreateCustomers_mutate_rows db rows :
  BulkCreateCustomers_mutate validate_email db rows = bulk_rows validate_email 1 db rows.
Proof.
  unfold BulkCreateCustomers_mutate. rewrite fold_bulk_step.
  by destruct (bulk_rows validate_email 1 db rows) as [[db' cs] es].
Qed.

Lemma customers_ok_same db db' :
  customers db' = customers db -> ok db -> ok db'.
Proof.
  unfold customers_ok, emails_validated, emails_unique.
  by intros ->.
Qed.

Lemma exec_customers_ok db op :
  ok db -> ok (exec validate_email db op).
Proof.
  intros Hok. destruct op as [input|input|input|now input|k price|self]; simpl.
  - by apply CreateCustomer_mutate_ok.
  - rewrite BulkCreateCustomers_mutate_rows. by apply bulk_rows_ok.
  - apply (customers_ok_same db); [|done].
    unfold CreateProduct_mutate, Product_objects_create.
    repeat case_match; simplify_eq/=; done.
  - apply (customers_ok_same db); [|done].
    destruct (CreateOrder_mutate now db input) as [[[db' order] m]|e] eqn:Hrun;
      [|done].
    by apply CreateOrder_mutate_Return in Hrun as (customer & ids & _ & _ & _ & _ & _ & -> & -> & _).
  - by apply (customers_ok_same db).
  - apply (customers_ok_same db); [|done].
    unfold Order_calculate_total. by case_match.
Qed.

Lemma reachable_customers_ok db :
  reachable validate_email db -> ok db.
Proof.
  intros [ops <-].
  assert (ok empty_store) as Hinit.
  { split; [apply map_Forall_empty|]. intros i j ci cj Hi. done. }
  revert Hinit. generalize empty_store.
  induction ops as [|op ops IH]; intros db0 Hok; simpl; [done|].
  by apply IH, exec_customers_ok.
Qed.

End Customers.

Section CustomerClaims.

Variable validate_email : string -> bool.

(** C6. In every store the operations can produce, a [createCustomer]
    call whose e-mail address is that of a stored customer raises
    "Email already exists" (a [DuplicateError]) whatever its name and
    phone are, and stores nothing; no two stored customers share an
    address, before the call or after any operation. *)
Theorem CreateCustomer_duplicate_email db input pk c :
  reachable validate_email db ->
  customers db !! pk = Some c ->
  Customer.email c = CustomerInput.email input ->
  let r := CreateCustomer_mutate validate_email db input in
  r = Raise (GraphQLError "Email already exists") /\
  error_kind r = Some DuplicateError /\
  store_after db r = db /\
  emails_unique db /\
  (forall op, emails_unique (exec validate_email db op)).
Proof.
  intros Hreach Hc Hemail r; subst r.
  destruct (reachable_customers_ok _ _ Hreach) as [Hval Huniq].
  destruct (CreateCustomer_mutate_cases validate_email db input) as (_ & Hdup & _).
  rewrite Hdup.
  - repeat split; try done.
    intros op. by apply (exec_customers_ok validate_email db op).
  - rewrite <- Hemail. by apply (Hval pk c).
  - apply email_exists_true. eauto.
Qed.

(** C4 fails on the code at the phone ["+abc"]: it has neither of the
    two forms, yet the check lets it through, because it accepts every
    phone that starts with a plus sign.  With a well-formed, unused
    e-mail address the customer is created with that phone. *)
Theorem CreateCustomer_plus_prefix_accepted db name email :
  validate_email email = true ->
  email_exists db email = false ->
  let input := CustomerInput.mk name email (Some "+abc") in
  matches_plus_digits "+abc" = false /\
  matches_digit_groups "+abc" = false /\
  exists db' pk,
    CreateCustomer_mutate validate_email db input =
      Return (db', (pk, customer_of_input input), "Customer created successfully") /\
    customers db' !! pk = Some (customer_of_input input).
Proof.
  intros Hv He input. split; [done|]. split; [done|].
  destruct (CreateCustomer_mutate_cases validate_email db input) as (_ & _ & _ & Hok).
  rewrite Hok by done.
  eexists _, _. split; [reflexivity|]. simpl. apply lookup_insert_eq.
Qed.

(** *** [BulkCreateCustomers.mutate] *)

Lemma CreateCustomer_mutate_keeps db input k c :
  customers db !! k = Some c ->
  customers (store_after db (CreateCustomer_mutate validate_email db input)) !! k = Some c.
Proof.
  intros Hk. unfold CreateCustomer_mutate, Customer_objects_create.
  repeat case_match; simplify_eq/=; try done.
  rewrite lookup_insert_ne; [done|]. intros <-.
  apply (is_fresh (dom (customers db))), elem_of_dom. eauto.
Qed.

Lemma bulk_rows_keeps rows : forall idx db k c,
  customers db !! k = Some c ->
  customers (bulk_rows validate_email idx db rows).1.1 !! k = Some c.
Proof.
  induction rows as [|row rows IH]; intros idx db k c Hk; simpl; [done|].
  pose proof (CreateCustomer_mutate_keeps db row k c Hk) as Hstep.
  destruct (CreateCustomer_mutate validate_email db row) as [[[db1 c1] m]|e];
    simpl in Hstep.
  - specialize (IH (S idx) db1 k c Hstep).
    by destruct (bulk_rows validate_email (S idx) db1 rows) as [[db2 cs] es].
  - specialize (IH (S idx) db k c Hk).
    by destruct (bulk_rows validate_email (S idx) db rows) as [[db2 cs] es].
Qed.

Lemma CreateCustomer_mutate_created db input db1 c m :
  CreateCustomer_mutate validate_email db input = Return (db1, c, m) ->
  c.2 = customer_of_input input /\ customers db1 !! c.1 = Some c.2.
Proof.
  unfold CreateCustomer_mutate, Customer_objects_create.
  repeat case_match; intros; simplify_eq/=.
  split; [done|]. apply lookup_insert_eq.
Qed.

Lemma bulk_rows_results rows : forall idx db,
  let r := bulk_rows validate_email idx db rows in
  (length r.1.2 + length r.2 = length rows)%nat /\
  r.1.2.*2 `sublist_of` (customer_of_input <$> rows) /\
  Forall (fun e => exists i text,
            e = row_error i text /\ (idx <= i < idx + length rows)%nat) r.2 /\
  Forall (fun c => customers r.1.1 !! c.1 = Some c.2) r.1.2.
Proof.
  induction rows as [|row rows IH]; intros idx db; simpl.
  - repeat split; constructor.
  - destruct (CreateCustomer_mutate validate_email db row) as [[[db1 c1] m]|e] eqn:Hrun.
    + apply CreateCustomer_mutate_created in Hrun as [Hc Hstored].
      pose proof (bulk_rows_keeps rows (S idx) db1 _ _ Hstored) as Hkept.
      destruct (IH (S idx) db1) as (Hlen & Hsub & Herr & Hcs).
      destruct (bulk_rows validate_email (S idx) db1 rows) as [[db2 cs] es].
      simpl in *. repeat split.
      * lia.
      * rewrite Hc. by apply sublist_skip.
      * eapply Forall_impl; [exact Herr|].
        intros err (i & text & -> & Hi). exists i, text. split; [done|lia].
      * by constructor.
    + destruct (IH (S idx) db) as (Hlen & Hsub & Herr & Hcs).
      destruct (bulk_rows validate_email (S idx) db rows) as [[db2 cs] es].
      simpl in *. repeat split.
      * lia.
      * by apply sublist_cons.
      * constructor; [exists idx, (row_message e); split; [done|lia]|].
        eapply Forall_impl; [exact Herr|].
        intros err (i & text & -> & Hi). exists i, text. split; [done|lia].
      * done.
Qed.

(** X21. [BulkCreateCustomers.mutate] on any rows: every row ends in exactly
    one of the two lists, the customers follow the input order, every
    error carries a row number of the input, and every collected customer
    is in the final store. *)
Theorem BulkCreateCustomers_mutate_partition db rows :
  let r := BulkCreateCustomers_mutate validate_email db rows in
  (length r.1.2 + length r.2 = length rows)%nat /\
  r.1.2.*2 `sublist_of` (customer_of_input <$> rows) /\
  Forall (fun e => exists i text,
            e = "Row " +:+ pretty i +:+ ": " +:+ text /\
            (1 <= i <= length rows)%nat) r.2 /\
  Forall (fun c => customers r.1.1 !! c.1 = Some c.2) r.1.2.
Proof.
  intros r; subst r.
  rewrite BulkCreateCustomers_mutate_rows.
  destruct (bulk_rows_results rows 1 db) as (Hlen & Hsub & Herr & Hcs).
  repeat split; try done.
  eapply Forall_impl; [exact Herr|].
  intros err (i & text & -> & Hi). exists i, text. split; [done|lia].
Qed.

(** The loop against the specification's wording, on rows whose phone the
    code and the specification judge alike. *)
Lemma bulk_rows_spec_bulk rows : forall idx db,
  Forall (fun row => phone_rejected (CustomerInput.phone row) =
                     negb (spec_phone_valid (CustomerInput.phone row))) rows ->
  bulk_rows validate_email idx db rows = spec_bulk validate_email idx db rows.
Proof.
  induction rows as [|row rows IH]; intros idx db Hall; [done|].
  apply Forall_cons in Hall as [Hrow Hall].
  cbn [bulk_rows spec_bulk].
  unfold CreateCustomer_mutate, spec_row_reason. rewrite Hrow.
  destruct (validate_email (CustomerInput.email row)); cbn [negb];
    [|by rewrite IH].
  destruct (email_exists db (CustomerInput.email row)); [by rewrite IH|].
  destruct (spec_phone_valid (CustomerInput.phone row)); cbn [negb];
    [|by rewrite IH].
  destruct (Customer_objects_create db _) as [db1 customer]. by rewrite IH.
Qed.

(** X20. On rows whose phone is ASCII text that the code and the
    specification judge alike, [BulkCreateCustomers.mutate] gives the
    result the specification words: the rows in order, an error
    [Row <i>: <reason>] for each row that fails a check, [i] counting from
    1, and the others stored and collected. *)
Theorem BulkCreateCustomers_mutate_spec db rows :
  Forall (fun row =>
            (forall p, CustomerInput.phone row = Some p -> isascii p = true) /\
            phone_rejected (CustomerInput.phone row) =
            negb (spec_phone_valid (CustomerInput.phone row))) rows ->
  BulkCreateCustomers_mutate validate_email db rows = spec_bulk validate_email 1 db rows.
Proof.
  intros Hall. rewrite BulkCreateCustomers_mutate_rows.
  apply bulk_rows_spec_bulk.
  eapply Forall_impl; [exact Hall|]. by intros row [_ ?].
Qed.

(** C3 fails on the code at a row whose phone is ["+abc"]: the phone has
    neither of the two forms, so the specification records
    ["Row 1: Invalid phone format"] and creates nothing; the loop has the
    check of [CreateCustomer.mutate], which lets every phone with a
    leading plus sign through, so it creates the customer and records no
    error. *)
Theorem BulkCreateCustomers_plus_prefix_accepted db name email :
  validate_email email = true ->
  email_exists db email = false ->
  let row := CustomerInput.mk name email (Some "+abc") in
  let r := BulkCreateCustomers_mutate validate_email db [row] in
  spec_bulk validate_email 1 db [row] = (db, [], ["Row 1: Invalid phone format"]) /\
  r.1.2.*2 = [customer_of_input row] /\
  r.2 = [] /\
  Forall (fun c => customers r.1.1 !! c.1 = Some c.2) r.1.2.
Proof.
  intros Hv He row r; subst r. split.
  - cbn [spec_bulk]. unfold spec_row_reason. cbn [CustomerInput.email row].
    rewrite Hv, He. reflexivity.
  - rewrite BulkCreateCustomers_mutate_rows. cbn [bulk_rows].
    destruct (CreateCustomer_mutate_cases validate_email db row) as (_ & _ & _ & Hok).
    rewrite Hok by done. cbn.
    split; [done|]. split; [done|].
    constructor; [|constructor]. apply lookup_insert_eq.
Qed.

End CustomerClaims.

(** *** The customer claims on concrete inputs *)

Lemma CreateCustomer_duplicate_email_witness :
  let r := CreateCustomer_mutate example_validate_email example_customer_store
             example_row_B in
  r = Raise (GraphQLError "Email already exists") /\
  error_kind r = Some DuplicateError /\
  store_after example_customer_store r = example_customer_store.
Proof.
  intros r.
  destruct (CreateCustomer_duplicate_email example_validate_email
              example_customer_store example_row_B 1%positive
              (customer_of_input example_row_A))
    as (Hmsg & Hkind & Hdb & _).
  - exists [OpCreateCustomer example_row_A]. reflexivity.
  - vm_compute. reflexivity.
  - reflexivity.
  - auto.
Defined.

Lemma CreateCustomer_plus_prefix_accepted_witness :
  let input := CustomerInput.mk "Eve" "eve@example.com" (Some "+abc") in
  matches_plus_digits "+abc" = false /\
  matches_digit_groups "+abc" = false /\
  exists db' pk,
    CreateCustomer_mutate example_validate_email empty_store input =
      Return (db', (pk, customer_of_input input), "Customer created successfully") /\
    customers db' !! pk = Some (customer_of_input input).
Proof.
  apply (CreateCustomer_plus_prefix_accepted example_validate_email empty_store
           "Eve" "eve@example.com"); vm_compute; reflexivity.
Defined.

Lemma BulkCreateCustomers_plus_prefix_accepted_witness :
  let row := CustomerInput.mk "Eve" "eve@example.com" (Some "+abc") in
  let r := BulkCreateCustomers_mutate example_validate_email empty_store [row] in
  spec_bulk example_validate_email 1 empty_store [row] =
    (empty_store, [], ["Row 1: Invalid phone format"]) /\
  r.1.2.*2 = [customer_of_input row] /\
  r.2 = [] /\
  Forall (fun c => customers r.1.1 !! c.1 = Some c.2) r.1.2.
Proof.
  apply (BulkCreateCustomers_plus_prefix_accepted example_validate_email empty_store
           "Eve" "eve@example.com"); vm_compute; reflexivity.
Defined.

(** Rows A, B, C of the specification's example, B repeating the address
    of A, and a fourth row whose phone has neither form. *)
Lemma BulkCreateCustomers_mutate_spec_witness :
  let D := CustomerInput.mk "Dan Brown" "dan@example.com" (Some "12a") in
  let rows := [example_row_A; example_row_B; example_row_C; D] in
  let r := BulkCreateCustomers_mutate example_validate_email empty_store rows in
  r = spec_bulk example_validate_email 1 empty_store rows /\
  r.1.2.*2 = [customer_of_input example_row_A; customer_of_input example_row_C] /\
  r.2 = ["Row 2: Email already exists"; "Row 4: Invalid phone format"].
Proof.
  intros D rows r.
  assert (Forall (fun row =>
            (forall p, CustomerInput.phone row = Some p -> isascii p = true) /\
            phone_rejected (CustomerInput.phone row) =
            negb (spec_phone_valid (CustomerInput.phone row))) rows) as Hrows.
  { repeat (apply Forall_cons; split); try apply Forall_nil; try exact I.
    all: split; [intros p [= <-]; reflexivity|reflexivity]. }
  pose proof (BulkCreateCustomers_mutate_spec example_validate_email empty_store rows
                Hrows) as Hspec.
  split; [exact Hspec|].
  unfold r. rewrite Hspec. split; reflexivity.
Defined.

(** ** Further properties of [CreateOrder.mutate] *)





(** * Further properties of the mutation layer *)

(** ** [CreateCustomer.mutate]: the successful call *)

(** X5. A call succeeds exactly when the address is well formed and
    unused and the phone passes the check.  It then adds one row, under a
    key that was free, whose name, address and phone are those of the
    input, character for character; the rows that were there and the
    other tables are untouched. *)
Theorem CreateCustomer_mutate_creates validate_email db input :
  let r := CreateCustomer_mutate validate_email db input in
  let accepted :=
    validate_email (CustomerInput.email input) = true /\
    email_exists db (CustomerInput.email input) = false /\
    phone_rejected (CustomerInput.phone input) = false in
  (accepted ->
   exists db' pk,
     r = Return (db', (pk, customer_of_input input), "Customer created successfully") /\
     customers db !! pk = None /\
     customers db' = <[pk := customer_of_input input]> (customers db) /\
     size (customers db') = S (size (customers db)) /\
     products db' = products db /\ orders db' = orders db /\
     order_products db' = order_products db) /\
  ((exists db' c m, r = Return (db', c, m)) -> accepted).
Proof.
  intros r accepted; subst r accepted.
  destruct (CreateCustomer_mutate_cases validate_email db input) as (H1 & H2 & H3 & H4).
  split.
  - intros (Hv & He & Hp). rewrite H4 by done.
    assert (customers db !! fresh (dom (customers db)) = None) as Hfresh
      by apply not_elem_of_dom, is_fresh.
    eexists _, _. split; [reflexivity|]. simpl.
    repeat split; try done. by apply map_size_insert_None.
  - intros (db' & c & m & Hrun).
    destruct (validate_email (CustomerInput.email input)); [|by rewrite H1 in Hrun].
    destruct (email_exists db (CustomerInput.email input)); [by rewrite H2 in Hrun|].
    destruct (phone_rejected (CustomerInput.phone input)); [by rewrite H3 in Hrun|].
    done.
Qed.

Lemma CreateCustomer_mutate_creates_witness :
  exists db' pk,
    CreateCustomer_mutate example_validate_email example_customer_store example_row_C =
      Return (db', (pk, customer_of_input example_row_C), "Customer created successfully") /\
    customers db' !! pk = Some (customer_of_input example_row_C) /\
    size (customers db') = 2%nat.
Proof.
  destruct (CreateCustomer_mutate_creates example_validate_email
              example_customer_store example_row_C) as [Hok _].
  destruct Hok as (db' & pk & Hrun & _ & Hrows & Hsize & _).
  - repeat split; vm_compute; reflexivity.
  - exists db', pk. split; [exact Hrun|]. split.
    + rewrite Hrows. apply lookup_insert_eq.
    + rewrite Hsize. reflexivity.
Defined.

(** ** The phone check, exactly *)

Lemma isdigit_spec (s : string) :
  isdigit s = true <-> s <> EmptyString /\ all_digits s = true.
Proof.
  destruct s as [|c r]; simpl; [|intuition congruence].
  split; [done|]. by intros [? _].
Qed.

Lemma all_digits_remove_hyphens (p : string) :
  all_digits (remove_hyphens p) = true <->
  Forall (fun c => is_digit c = true \/ c = "-"%char) (chars p).
Proof.
  induction p as [|c r IH]; simpl.
  - split; [constructor|done].
  - rewrite Forall_cons, <- IH. case_bool_decide as Hc.
    + intuition.
    + simpl. rewrite andb_true_iff. intuition.
Qed.

Lemma remove_hyphens_nonempty (p : string) :
  all_digits (remove_hyphens p) = true ->
  remove_hyphens p <> EmptyString <-> Exists (fun c => is_digit c = true) (chars p).
Proof.
  induction p as [|c r IH]; simpl.
  - intros _. split; [done|]. by intros ?%Exists_nil.
  - rewrite Exists_cons. case_bool_decide as Hc.
    + intros Hall. rewrite (IH Hall). subst c. split; [auto|].
      intros [?|?]; [done|auto].
    + simpl. intros [Hd _]%andb_true_iff. split; [auto|done].
Qed.

(** X6. On ASCII text the phone check lets through exactly the omitted
    phone, the empty string, every string that starts with a plus sign,
    and the strings of digits and hyphens that hold at least one digit.
    (Outside ASCII [str.isdigit] knows more digits than [0] to [9].) *)
Theorem phone_rejected_false_iff (phone : option string) :
  (forall p, phone = Some p -> isascii p = true) ->
  phone_rejected phone = false <->
  phone = None \/
  exists p, phone = Some p /\
    (p = EmptyString \/
     (exists r, p = String "+"%char r) \/
     (Forall (fun c => is_digit c = true \/ c = "-"%char) (chars p) /\
      Exists (fun c => is_digit c = true) (chars p))).
Proof.
  intros _. destruct phone as [p|]; simpl; [|by split; [left|]].
  split.
  - intros Hacc. right. exists p. split; [done|].
    destruct p as [|c r]; [by left|]. right.
    simpl in Hacc. apply negb_false_iff, orb_true_iff in Hacc as [Hplus|Hdig].
    + left. exists r. apply bool_decide_eq_true in Hplus. by subst c.
    + right. apply isdigit_spec in Hdig as [Hne Hall].
      split; [by apply all_digits_remove_hyphens|].
      by apply remove_hyphens_nonempty.
  - intros [?|(q & [= <-] & Hcases)]; [done|].
    destruct Hcases as [->|[[r ->]|[Hall Hex]]]; [done|done|].
    destruct p as [|c r]; [done|].
    cbn [truthy andb]. apply negb_false_iff, orb_true_iff. right.
    apply all_digits_remove_hyphens in Hall.
    apply isdigit_spec. split; [|done].
    by apply remove_hyphens_nonempty.
Qed.

Lemma phone_rejected_false_iff_witness :
  phone_rejected (Some "555-0100") = false /\
  Exists (fun c => is_digit c = true) (chars "555-0100").
Proof.
  assert (forall p, Some "555-0100" = Some p -> isascii p = true) as Hascii.
  { by intros p [= <-]. }
  destruct (phone_rejected_false_iff (Some "555-0100") Hascii) as [Hacc _].
  specialize (Hacc eq_refl).
  destruct Hacc as [Hnone|(p & Hp & Hcases)]; [discriminate|].
  injection Hp as <-.
  destruct Hcases as [Hempty|[[r Hplus]|[_ Hex]]]; [discriminate|discriminate|].
  split; [reflexivity|exact Hex].
Defined.

(** ** [BulkCreateCustomers.mutate]: batches *)

Lemma enumerate_app {A} (xs ys : list A) : forall start,
  enumerate start (xs ++ ys) =
  enumerate start xs ++ enumerate (start + length xs) ys.
Proof.
  induction xs as [|x xs IH]; intros start; simpl.
  - by rewrite Nat.add_0_r.
  - rewrite IH. do 3 f_equal. lia.
Qed.

(** X7. A batch [xs ++ ys] is the batch [xs] followed by the rows [ys]
    numbered on from [length xs + 1] and run on the store that [xs] left:
    the created customers and the errors are those of the two parts, in
    that order. *)
Theorem BulkCreateCustomers_mutate_app validate_email db xs ys :
  let r1 := BulkCreateCustomers_mutate validate_email db xs in
  let r2 := bulk_rows validate_email (S (length xs)) r1.1.1 ys in
  BulkCreateCustomers_mutate validate_email db (xs ++ ys) =
  (r2.1.1, r1.1.2 ++ r2.1.2, r1.2 ++ r2.2).
Proof.
  intros r1 r2; subst r1 r2. unfold BulkCreateCustomers_mutate.
  rewrite enumerate_app, fold_left_app, (fold_bulk_step validate_email xs).
  destruct (bulk_rows validate_email 1 db xs) as [[db1 cs1] es1]. simpl.
  rewrite (fold_bulk_step validate_email ys).
  by destruct (bulk_rows validate_email (S (length xs)) db1 ys) as [[db2 cs2] es2].
Qed.

Lemma bulk_rows_all_accepted validate_email rows : forall idx db,
  Forall (fun row =>
            validate_email (CustomerInput.email row) = true /\
            email_exists db (CustomerInput.email row) = false /\
            phone_rejected (CustomerInput.phone row) = false) rows ->
  NoDup (CustomerInput.email <$> rows) ->
  let r := bulk_rows validate_email idx db rows in
  r.2 = [] /\ r.1.2.*2 = customer_of_input <$> rows.
Proof.
  induction rows as [|row rows IH]; intros idx db Hall Hnd; simpl; [done|].
  apply Forall_cons in Hall as [(Hv & He & Hp) Hall].
  rewrite fmap_cons in Hnd. apply NoDup_cons in Hnd as [Hnotin Hnd].
  destruct (CreateCustomer_mutate_cases validate_email db row) as (_ & _ & _ & Hok).
  rewrite Hok by done. clear Hok.
  set (db1 := (Customer_objects_create db (customer_of_input row)).1).
  destruct (IH (S idx) db1) as [Hes Hcs]; [|done|].
  - rewrite Forall_forall in Hall |- *. intros row' Hin.
    destruct (Hall row' Hin) as (Hv' & He' & Hp').
    repeat split; try done.
    apply not_true_iff_false. unfold db1. rewrite email_exists_create.
    intros [Heq|?]; [|congruence].
    apply Hnotin. simpl in Heq. rewrite Heq. apply list_elem_of_fmap. eauto.
  - destruct (bulk_rows validate_email (S idx) db1 rows) as [[db2 cs] es].
    simpl in *. split; [done|]. f_equal. exact Hcs.
Qed.

(** X8. When every row of a batch has a well-formed address that the
    store does not hold, a phone that passes the check, and no two rows
    share an address, the batch reports no error and creates one customer
    per row, in row order. *)
Theorem BulkCreateCustomers_mutate_all_accepted validate_email db rows :
  Forall (fun row =>
            validate_email (CustomerInput.email row) = true /\
            email_exists db (CustomerInput.email row) = false /\
            phone_rejected (CustomerInput.phone row) = false) rows ->
  NoDup (CustomerInput.email <$> rows) ->
  let r := BulkCreateCustomers_mutate validate_email db rows in
  r.2 = [] /\ r.1.2.*2 = customer_of_input <$> rows.
Proof.
  intros Hall Hnd r; subst r. rewrite BulkCreateCustomers_mutate_rows.
  by apply bulk_rows_all_accepted.
Qed.

Lemma BulkCreateCustomers_mutate_all_accepted_witness :
  let r := BulkCreateCustomers_mutate example_validate_email empty_store
             [example_row_A; example_row_C] in
  r.2 = [] /\
  r.1.2.*2 = [customer_of_input example_row_A; customer_of_input example_row_C].
Proof.
  apply (BulkCreateCustomers_mutate_all_accepted example_validate_email empty_store
           [example_row_A; example_row_C]).
  - repeat constructor; vm_compute; reflexivity.
  - simpl. apply NoDup_cons. split; [|apply NoDup_singleton].
    intros Hin%list_elem_of_singleton. discriminate.
Defined.

Lemma CreateCustomer_mutate_Return_frame validate_email db input db1 c m :
  CreateCustomer_mutate validate_email db input = Return (db1, c, m) ->
  products db1 = products db /\ orders db1 = orders db /\
  order_products db1 = order_products db /\
  size (customers db1) = S (size (customers db)).
Proof.
  unfold CreateCustomer_mutate, Customer_objects_create.
  repeat case_match; intros; simplify_eq/=.
  repeat split. apply map_size_insert_None, not_elem_of_dom, is_fresh.
Qed.

Lemma bulk_rows_frame validate_email rows : forall idx db,
  let r := bulk_rows validate_email idx db rows in
  products r.1.1 = products db /\ orders r.1.1 = orders db /\
  order_products r.1.1 = order_products db /\
  size (customers r.1.1) = (size (customers db) + length r.1.2)%nat /\
  (r.1.2 = [] -> r.1.1 = db).
Proof.
  induction rows as [|row rows IH]; intros idx db; simpl.
  - repeat split; try done; lia.
  - destruct (CreateCustomer_mutate validate_email db row) as [[[db1 c] m]|e] eqn:Hrun.
    + apply CreateCustomer_mutate_Return_frame in Hrun as (Hp & Ho & Hl & Hsize).
      destruct (IH (S idx) db1) as (Hp' & Ho' & Hl' & Hsize' & _).
      destruct (bulk_rows validate_email (S idx) db1 rows) as [[db2 cs] es].
      simpl in *. repeat split; try congruence. lia.
    + destruct (IH (S idx) db) as (Hp' & Ho' & Hl' & Hsize' & Hsame).
      destruct (bulk_rows validate_email (S idx) db rows) as [[db2 cs] es].
      simpl in *. repeat split; done.
Qed.

(** X9. A batch writes to the customer table only: products, orders and
    links are untouched, the customers that were stored stay as they
    were, the table grows by exactly the number of customers created, and
    a batch that creates none leaves the store as it was. *)
Theorem BulkCreateCustomers_mutate_frame validate_email db rows :
  let r := BulkCreateCustomers_mutate validate_email db rows in
  products r.1.1 = products db /\ orders r.1.1 = orders db /\
  order_products r.1.1 = order_products db /\
  (forall k c, customers db !! k = Some c -> customers r.1.1 !! k = Some c) /\
  size (customers r.1.1) = (size (customers db) + length r.1.2)%nat /\
  (r.1.2 = [] -> r.1.1 = db).
Proof.
  intros r; subst r. rewrite BulkCreateCustomers_mutate_rows.
  destruct (bulk_rows_frame validate_email rows 1 db) as (Hp & Ho & Hl & Hsize & Hsame).
  repeat split; try done.
  intros k c. apply bulk_rows_keeps.
Qed.

Lemma bulk_rows_store validate_email rows : forall idx db,
  (bulk_rows validate_email idx db rows).1.1 =
  fold_left (fun db row => store_after db (CreateCustomer_mutate validate_email db row))
    rows db.
Proof.
  induction rows as [|row rows IH]; intros idx db; simpl; [done|].
  destruct (CreateCustomer_mutate validate_email db row) as [[[db1 c] m]|e]; simpl.
  - rewrite <- (IH (S idx) db1).
    by destruct (bulk_rows validate_email (S idx) db1 rows) as [[db2 cs] es].
  - rewrite <- (IH (S idx) db).
    by destruct (bulk_rows validate_email (S idx) db rows) as [[db2 cs] es].
Qed.

(** X18. A batch leaves the store that one [createCustomer] call per row,
    made in row order, leaves: the rows those calls refuse are the rows
    the batch reports, and they change nothing in either case. *)
Theorem BulkCreateCustomers_mutate_as_calls validate_email db rows :
  (BulkCreateCustomers_mutate validate_email db rows).1.1 =
  fold_left (fun db row => store_after db (CreateCustomer_mutate validate_email db row))
    rows db.
Proof.
  rewrite BulkCreateCustomers_mutate_rows. apply bulk_rows_store.
Qed.

(** ** [CreateOrder.mutate]: what a successful call writes *)

Lemma elem_of_products_set db pk ps o p :
  (o, p) ∈ order_products (products_set db pk ps) <->
  (o <> pk /\ (o, p) ∈ order_products db) \/ (o = pk /\ p ∈ ps.*1).
Proof.
  unfold products_set; simpl.
  rewrite elem_of_union, elem_of_filter, elem_of_list_to_set, !list_elem_of_fmap.
  simpl. split.
  - intros [[Hne Hin]|[kp [[= -> ->] Hin]]]; [by left|]. right. eauto.
  - intros [[Hne Hin]|[-> [kp [-> Hin]]]]; [by left|]. right. eauto.
Qed.

(** X10. A successful call writes one order row and its links, nothing
    else.  The row has the customer that the identifier of the input
    denotes and the date of the input, or the current time when the input
    has none; the customers,
    the products, the orders that were stored and the links of those
    orders are as they were. *)
Theorem CreateOrder_mutate_frame now db input db' order message :
  CreateOrder_mutate now db input = Return (db', order, message) ->
  int_of_string (OrderInput.customer_id input) = Some (Zpos (Order.customer order.2)) /\
  Order.order_date order.2 = default now (OrderInput.order_date input) /\
  customers db' = customers db /\
  products db' = products db /\
  orders db' = <[order.1 := order.2]> (orders db) /\
  (forall pk o, orders db !! pk = Some o -> orders db' !! pk = Some o) /\
  (forall o p, o <> order.1 ->
     (o, p) ∈ order_products db' <-> (o, p) ∈ order_products db).
Proof.
  intros Hrun.
  pose proof (CreateOrder_mutate_Return _ _ _ _ _ _ Hrun)
    as (customer & ids & Hcid & _ & _ & _ & _ & -> & -> & _).
  simpl. repeat split; try done.
  - intros pk o Ho. rewrite lookup_insert_ne; [done|]. intros <-.
    apply (is_fresh (dom (orders db))), elem_of_dom. eauto.
  - intros Hin. apply elem_of_products_set in Hin as [[_ ?]|[? _]]; done.
  - intros Hin. apply elem_of_products_set. by left.
Qed.

Lemma CreateOrder_mutate_frame_witness :
  exists db' order message,
    CreateOrder_mutate 7 example_order_store
      (OrderInput.mk "1" ["2"] None) = Return (db', order, message) /\
    Order.order_date order.2 = 7 /\
    orders db' !! example_order.1 = Some example_order.2 /\
    products db' = products example_order_store.
Proof.
  destruct (CreateOrder_mutate 7 example_order_store
              (OrderInput.mk "1" ["2"] None))
    as [[[db' order] message]|e] eqn:Hrun; [|vm_compute in Hrun; discriminate].
  destruct (CreateOrder_mutate_frame _ _ _ _ _ _ Hrun)
    as (_ & Hdate & _ & Hprod & _ & Hkeep & _).
  exists db', order, message. repeat split; try done.
  apply Hkeep, example_order_stored.
Defined.




(** ** [Order.calculate_total] composed with itself and with creation *)

Lemma filter_ext_elem_of {A} (P Q : A -> Prop)
    `{!forall x, Decision (P x)} `{!forall x, Decision (Q x)} (l : list A) :
  (forall x, x ∈ l -> P x <-> Q x) -> filter P l = filter Q l.
Proof.
  induction l as [|x l IH]; intros Hext; [done|].
  rewrite !filter_cons.
  assert (filter P l = filter Q l) as ->.
  { apply IH. intros y Hy. apply Hext. by right. }
  destruct (decide (P x)) as [HP|HP], (decide (Q x)) as [HQ|HQ]; try done.
  - destruct HQ. apply Hext; [left|done].
  - destruct HP. apply Hext; [left|done].
Qed.

(** The rows [order.products.all()] returns depend on the product table
    and on the links of that order only. *)
Lemma products_all_ext db db' pk :
  products db' = products db ->
  (forall p, (pk, p) ∈ order_products db' <-> (pk, p) ∈ order_products db) ->
  products_all db' pk = products_all db pk.
Proof.
  intros Hprod Hlinks. unfold products_all. rewrite Hprod.
  apply list_filter_iff. intros kp. apply Hlinks.
Qed.

(** Right after an order is created, its products are the rows the
    creation resolved. *)
Lemma products_all_created db pk o ids :
  products_all
    (products_set (Order_objects_create db o).1 pk (products_with_keys db ids)) pk
  = products_with_keys db ids.
Proof.
  set (ps := products_with_keys db ids).
  set (db' := products_set _ _ _).
  assert (forall k, (pk, k) ∈ order_products db' <-> k ∈ ps.*1) as Hlinks.
  { intros k. unfold db'. rewrite elem_of_products_set. split.
    - intros [[? _]|[_ ?]]; done.
    - intros Hk. by right. }
  transitivity (filter (fun kp : positive * Product.t => kp.1 ∈ ps.*1)
                  (map_to_list (products db))).
  { apply list_filter_iff. intros kp. apply Hlinks. }
  apply filter_ext_elem_of. intros [k p] Hin. simpl.
  apply elem_of_map_to_list in Hin.
  unfold ps. rewrite filter_id_in_key. split; [tauto|]. eauto.
Qed.

Lemma Store_eta db :
  mkStore (customers db) (products db) (orders db) (order_products db) = db.
Proof. by destruct db. Qed.

(** X12. Recomputing the total of an order right after its creation
    changes nothing: [calculate_total] returns the total the creation
    stored and leaves the store as it is. *)
Theorem Order_calculate_total_after_create now db input db' order message :
  CreateOrder_mutate now db input = Return (db', order, message) ->
  Order_calculate_total db' order = Return (db', order, Order.total_amount order.2).
Proof.
  intros Hrun.
  apply CreateOrder_mutate_Return in Hrun as (customer & ids & _ & _ & _ & _ & _ & -> & -> & _).
  set (ps := products_with_keys db ids).
  set (o := Order.mk _ _ _).
  set (pk := fresh (dom (orders db))).
  change ((pk, o).1) with pk. change ((pk, o).2) with o.
  set (db' := products_set _ _ _).
  assert (orders db' !! pk = Some o) as Hrow by apply lookup_insert_eq.
  assert (products_all db' pk = ps) as Hall by apply products_all_created.
  rewrite (Order_calculate_total_Return db' (pk, o) o Hrow).
  change ((pk, o).1) with pk. change ((pk, o).2) with o.
  rewrite Hall.
  change (Order.with_total_amount o (py_sum ((fun kp => Product.price kp.2) <$> ps)))
    with o.
  rewrite (insert_id _ _ _ Hrow). by rewrite Store_eta.
Qed.

Lemma Order_calculate_total_after_create_witness :
  Order_calculate_total example_order_store example_order =
  Return (example_order_store, example_order, mkFinite 1550 (-2)).
Proof.
  apply (Order_calculate_total_after_create 0 example_store
           (OrderInput.mk "1" ["1"; "2"] None)
           example_order_store example_order "Order created successfully").
  vm_compute. reflexivity.
Defined.

(** X13. [calculate_total] is idempotent: a second call, on the instance
    and the store the first one left, returns the same total and changes
    neither. *)
Theorem Order_calculate_total_idempotent db self db1 self1 total :
  Order_calculate_total db self = Return (db1, self1, total) ->
  Order_calculate_total db1 self1 = Return (db1, self1, total).
Proof.
  intros Hrun. unfold Order_calculate_total in Hrun.
  destruct (orders db !! self.1) as [row|] eqn:Hrow; [|done].
  injection Hrun as <- <- <-.
  set (total := py_sum _).
  set (db1 := mkStore _ _ _ _).
  assert (orders db1 !! self.1 = Some (Order.with_total_amount row total)) as Hrow1
    by apply lookup_insert_eq.
  rewrite (Order_calculate_total_Return db1 (self.1, Order.with_total_amount self.2 total)
             _ Hrow1). simpl.
  rewrite (products_all_ext db db1 self.1) by done. fold total.
  by rewrite insert_insert_eq.
Qed.

Lemma Order_calculate_total_idempotent_witness :
  let db := Product_set_price example_order_store 2%positive (mkFinite 725 (-2)) in
  exists db1 self1,
    Order_calculate_total db example_order = Return (db1, self1, mkFinite 1725 (-2)) /\
    Order_calculate_total db1 self1 = Return (db1, self1, mkFinite 1725 (-2)).
Proof.
  intros db.
  destruct (Order_calculate_total db example_order) as [[[db1 self1] total]|e] eqn:Hrun;
    [|vm_compute in Hrun; discriminate].
  assert (total = mkFinite 1725 (-2)) as ->.
  { vm_compute in Hrun. by injection Hrun as _ _ <-. }
  exists db1, self1. split; [reflexivity|].
  by apply (Order_calculate_total_idempotent db example_order).
Defined.

(** ** What the operations do to the store *)

Lemma grows_refl set_price db : grows set_price db db.
Proof. repeat split; eauto 10. Qed.

Lemma adds_well_refl db : adds_well db db.
Proof. split; eauto. Qed.

(** Operations that leave orders and links alone. *)
Lemma adds_well_same db db' :
  orders db' = orders db -> order_products db' = order_products db ->
  adds_well db db'.
Proof. intros Ho Hl. unfold adds_well. rewrite Ho, Hl. split; eauto. Qed.

Lemma grows_customers set_price db db' :
  (forall k c, customers db !! k = Some c -> customers db' !! k = Some c) ->
  products db' = products db -> orders db' = orders db ->
  order_products db' = order_products db ->
  grows set_price db db'.
Proof.
  intros Hc Hp Ho Hl. unfold grows. rewrite Hp, Ho, Hl.
  repeat split; eauto 10.
Qed.

Lemma CreateCustomer_mutate_effect validate_email db input :
  let db' := store_after db (CreateCustomer_mutate validate_email db input) in
  grows false db db' /\ adds_well db db'.
Proof.
  intros db'; subst db'.
  pose proof (CreateCustomer_mutate_keeps validate_email db input) as Hkeep.
  destruct (CreateCustomer_mutate validate_email db input) as [[[db1 c] m]|e] eqn:Hrun;
    simpl in *; [|split; [apply grows_refl|apply adds_well_refl]].
  apply CreateCustomer_mutate_Return_frame in Hrun as (Hp & Ho & Hl & _).
  split; [by apply grows_customers|by apply adds_well_same].
Qed.

Lemma BulkCreateCustomers_mutate_effect validate_email db rows :
  let db' := (BulkCreateCustomers_mutate validate_email db rows).1.1 in
  grows false db db' /\ adds_well db db'.
Proof.
  intros db'; subst db'. rewrite BulkCreateCustomers_mutate_rows.
  destruct (bulk_rows_frame validate_email rows 1 db) as (Hp & Ho & Hl & _).
  split; [|by apply adds_well_same].
  apply grows_customers; try done.
  intros k c. apply bulk_rows_keeps.
Qed.

Lemma CreateProduct_mutate_effect db input :
  let db' := store_after db (CreateProduct_mutate db input) in
  grows false db db' /\ adds_well db db'.
Proof.
  intros db'; subst db'.
  unfold CreateProduct_mutate, Product_objects_create.
  repeat case_match; simplify_eq/=;
    try (split; [apply grows_refl|apply adds_well_refl]).
  split; [|by apply adds_well_same].
  repeat split; simpl; eauto 10.
  intros k p Hk. exists p. repeat split; try done.
  rewrite lookup_insert_ne; [done|]. intros <-.
  apply (is_fresh (dom (products db))), elem_of_dom. eauto.
Qed.

Lemma CreateOrder_mutate_effect now db input :
  let db' := store_after db (CreateOrder_mutate now db input) in
  grows false db db' /\ adds_well db db'.
Proof.
  intros db'; subst db'.
  destruct (CreateOrder_mutate now db input) as [[[db1 order] m]|e] eqn:Hrun;
    simpl; [|split; [apply grows_refl|apply adds_well_refl]].
  apply CreateOrder_mutate_Return in Hrun as (customer & ids & _ & _ & Hcust & _ & Hne & -> & -> & _).
  set (ps := products_with_keys db ids) in *.
  set (o := Order.mk _ _ _).
  change ((fresh (dom (orders db)), o).1) with (fresh (dom (orders db))).
  assert (orders db !! fresh (dom (orders db)) = None) as Hfresh
    by apply not_elem_of_dom, is_fresh.
  split.
  - split; [|split; [|split]].
    + intros k c Hk. exact Hk.
    + intros k p Hk. exists p. repeat split; done.
    + intros k o0 Hk. exists o0. split; [|done]. simpl.
      rewrite lookup_insert_ne; [done|]. intros Heq.
      rewrite Heq, Hk in Hfresh. done.
    + intros o0 p [o1 Ho1]. rewrite elem_of_products_set. split.
      * intros [[_ ?]|[Heq _]]; [done|].
        rewrite Heq, Hfresh in Ho1. done.
      * intros Hin. left. split; [|done]. intros Heq.
        rewrite Heq, Hfresh in Ho1. done.
  - split.
    + intros k o' Hk. simpl in Hk.
      apply lookup_insert_Some in Hk as [[<- <-]|[_ Hk]]; [right|left; eauto].
      split; [done|].
      destruct ps as [|[k p] ps'] eqn:Hps; [done|].
      exists k. apply elem_of_products_set. right. split; [done|]. simpl. left.
    + intros o0 p Hin. apply elem_of_products_set in Hin as [[_ ?]|[-> Hin]]; [by left|].
      right. split; [simpl; rewrite lookup_insert_eq; eauto|].
      apply filter_id_in_key in Hin. tauto.
Qed.

Lemma Product_set_price_effect db pk price :
  grows true db (Product_set_price db pk price) /\
  adds_well db (Product_set_price db pk price).
Proof.
  split; [|by apply adds_well_same].
  repeat split; simpl; eauto 10.
  intros k p Hk. rewrite lookup_alter. case_decide as Heq.
  - subst k. rewrite Hk. simpl. eexists. repeat split. done.
  - exists p. repeat split; done.
Qed.

Lemma Order_calculate_total_effect db self :
  let db' := store_after db (Order_calculate_total db self) in
  grows false db db' /\ adds_well db db'.
Proof.
  intros db'; subst db'. unfold Order_calculate_total.
  destruct (orders db !! self.1) as [row|] eqn:Hrow; simpl;
    [|split; [apply grows_refl|apply adds_well_refl]].
  split.
  - repeat split; simpl; eauto 10.
    intros k o Hk. destruct (decide (k = self.1)) as [->|Hne].
    + rewrite lookup_insert_eq. eexists. split; [done|].
      rewrite Hrow in Hk. by injection Hk as <-.
    + rewrite lookup_insert_ne by done. eauto.
  - split; simpl; [|eauto].
    intros k o' Hk. left.
    apply lookup_insert_Some in Hk as [[<- _]|[_ Hk]]; eauto.
Qed.

Lemma exec_effect validate_email db op :
  grows (is_set_price op) db (exec validate_email db op) /\
  adds_well db (exec validate_email db op).
Proof.
  destruct op as [input|input|input|now input|k price|self]; simpl.
  - apply CreateCustomer_mutate_effect.
  - apply BulkCreateCustomers_mutate_effect.
  - apply CreateProduct_mutate_effect.
  - apply CreateOrder_mutate_effect.
  - apply Product_set_price_effect.
  - apply Order_calculate_total_effect.
Qed.

(** X14. No operation deletes or overwrites what is stored.  A customer
    row stays as it is; a product row stays, and only a price change
    alters it, in its price alone; an order row keeps its customer and its
    date; a stored order keeps exactly the links it has. *)
Theorem exec_grows validate_email db op :
  grows (is_set_price op) db (exec validate_email db op).
Proof.
  destruct op as [input|input|input|now input|k price|self]; simpl.
  - apply CreateCustomer_mutate_effect.
  - apply BulkCreateCustomers_mutate_effect.
  - apply CreateProduct_mutate_effect.
  - apply CreateOrder_mutate_effect.
  - apply Product_set_price_effect.
  - apply Order_calculate_total_effect.
Qed.

(** ** Invariants *)

Lemma linked_products_ext db db' k :
  (forall p, (k, p) ∈ order_products db' <-> (k, p) ∈ order_products db) ->
  linked_products db' k = linked_products db k.
Proof.
  intros Hlinks. apply set_eq. intros p.
  rewrite !elem_of_linked_products. apply Hlinks.
Qed.

Lemma resolved_prices_ext db db' (ids : list PK) :
  (forall k, k ∈ ids -> products db' !! k = products db !! k) ->
  resolved_prices db' ids = resolved_prices db ids.
Proof.
  unfold resolved_prices. induction ids as [|k ids IH]; intros Hext; [done|].
  simpl. rewrite (Hext k) by left.
  assert (forall k', k' ∈ ids -> products db' !! k' = products db !! k') as Hrest.
  { intros k' Hk'. apply Hext. by right. }
  destruct (products db !! k); simpl; [f_equal|]; by apply IH.
Qed.

Lemma exec_integrity validate_email db op :
  references_ok db -> orders_nonempty db ->
  references_ok (exec validate_email db op) /\
  orders_nonempty (exec validate_email db op).
Proof.
  intros [Hcust Hlink] Hnonempty.
  destruct (exec_effect validate_email db op)
    as [(Gc & Gp & Go & Gl) (Anew & Alink)].
  set (db' := exec validate_email db op) in *.
  assert (forall k, is_Some (orders db !! k) -> is_Some (orders db' !! k)) as Gorder.
  { intros k [o Ho]. destruct (Go _ _ Ho) as (o' & Ho' & _). eauto. }
  assert (forall k, is_Some (products db !! k) -> is_Some (products db' !! k)) as Gprod.
  { intros k [p Hp]. destruct (Gp _ _ Hp) as (p' & Hp' & _). eauto. }
  assert (forall k, is_Some (customers db !! k) -> is_Some (customers db' !! k)) as Gcust.
  { intros k [c Hc]. eauto. }
  split; [split|].
  - intros k o' Ho'. destruct (Anew _ _ Ho') as [[o Ho]|[Hc _]]; [|by apply Gcust].
    destruct (Go _ _ Ho) as (o'' & Ho'' & Hsame & _).
    rewrite Ho' in Ho''. injection Ho'' as <-.
    rewrite Hsame. eapply Gcust, Hcust, Ho.
  - intros o p Hin. destruct (Alink _ _ Hin) as [Hold|[Ho Hp]].
    + destruct (Hlink _ _ Hold) as [Ho Hp]. auto.
    + auto.
  - intros k o' Ho' Hempty.
    destruct (Anew _ _ Ho') as [[o Ho]|[_ [p Hp]]].
    + apply (Hnonempty _ _ Ho).
      rewrite <- Hempty. symmetry. apply linked_products_ext.
      intros p. apply Gl. eauto.
    + apply elem_of_linked_products in Hp. rewrite Hempty in Hp.
      by apply not_elem_of_empty in Hp.
Qed.

Lemma emails_unique_same db db' :
  customers db' = customers db -> emails_unique db -> emails_unique db'.
Proof. unfold emails_unique. by intros ->. Qed.

Lemma Customer_objects_create_unique db c :
  emails_unique db -> email_exists db (Customer.email c) = false ->
  emails_unique (Customer_objects_create db c).1.
Proof.
  intros Huniq Hnew. rewrite email_exists_false in Hnew.
  intros i j ci cj; simpl. intros Hi Hj Heq.
  apply lookup_insert_Some in Hi as [[<- <-]|[Hni Hi]],
        Hj as [[<- <-]|[Hnj Hj]]; try done.
  - by destruct (Hnew _ _ Hj).
  - by destruct (Hnew _ _ Hi).
  - by apply (Huniq i j ci cj).
Qed.

Lemma CreateCustomer_mutate_unique validate_email db input :
  emails_unique db ->
  emails_unique (store_after db (CreateCustomer_mutate validate_email db input)).
Proof.
  intros Huniq. unfold CreateCustomer_mutate.
  destruct (validate_email (CustomerInput.email input)); simpl; [|done].
  destruct (email_exists db (CustomerInput.email input)) eqn:He; [done|].
  destruct (phone_rejected (CustomerInput.phone input)); [done|].
  by apply (Customer_objects_create_unique db (customer_of_input input)).
Qed.

Lemma bulk_rows_unique validate_email rows : forall idx db,
  emails_unique db -> emails_unique (bulk_rows validate_email idx db rows).1.1.
Proof.
  induction rows as [|row rows IH]; intros idx db Huniq; simpl; [done|].
  pose proof (CreateCustomer_mutate_unique validate_email db row Huniq) as Hstep.
  destruct (CreateCustomer_mutate validate_email db row) as [[[db1 c] m]|e];
    simpl in Hstep.
  - specialize (IH (S idx) db1 Hstep).
    by destruct (bulk_rows validate_email (S idx) db1 rows) as [[db2 cs] es].
  - specialize (IH (S idx) db Huniq).
    by destruct (bulk_rows validate_email (S idx) db rows) as [[db2 cs] es].
Qed.

Lemma exec_emails_unique validate_email db op :
  emails_unique db -> emails_unique (exec validate_email db op).
Proof.
  intros Huniq. destruct op as [input|input|input|now input|k price|self]; simpl.
  - by apply CreateCustomer_mutate_unique.
  - rewrite BulkCreateCustomers_mutate_rows. by apply bulk_rows_unique.
  - apply (emails_unique_same db); [|done].
    unfold CreateProduct_mutate, Product_objects_create.
    repeat case_match; simplify_eq/=; done.
  - apply (emails_unique_same db); [|done].
    destruct (CreateOrder_mutate now db input) as [[[db' order] m]|e] eqn:Hrun;
      [|done].
    by apply CreateOrder_mutate_Return in Hrun as (customer & ids & _ & _ & _ & _ & _ & -> & -> & _).
  - by apply (emails_unique_same db).
  - apply (emails_unique_same db); [|done].
    unfold Order_calculate_total. by case_match.
Qed.

(** X15. Every operation keeps the invariants of the store, from any
    store that has them: an order belongs to a stored customer, a link
    joins a stored order to a stored product, every order has at least
    one product, and no two customers share an e-mail address. *)
Theorem exec_keeps_invariants validate_email db op :
  references_ok db -> orders_nonempty db -> emails_unique db ->
  references_ok (exec validate_email db op) /\
  orders_nonempty (exec validate_email db op) /\
  emails_unique (exec validate_email db op).
Proof.
  intros Href Hne Huniq.
  destruct (exec_integrity validate_email db op Href Hne) as [Href' Hne'].
  split; [done|]. split; [done|]. by apply exec_emails_unique.
Qed.

Lemma empty_store_invariants :
  references_ok empty_store /\ orders_nonempty empty_store /\ emails_unique empty_store.
Proof.
  split; [split|split].
  - intros pk o Ho. simpl in Ho. by rewrite lookup_empty in Ho.
  - intros o p Hin. by apply not_elem_of_empty in Hin.
  - intros pk o Ho. simpl in Ho. by rewrite lookup_empty in Ho.
  - intros i j ci cj Hi. simpl in Hi. by rewrite lookup_empty in Hi.
Qed.

(** X16. In every store the operations can produce from the empty one,
    each order belongs to a stored customer and is linked to at least one
    product, each link joins a stored order to a stored product, and the
    customers' e-mail addresses are pairwise distinct. *)
Theorem reachable_invariants validate_email db :
  reachable validate_email db ->
  references_ok db /\ orders_nonempty db /\ emails_unique db.
Proof.
  intros [ops <-].
  pose proof empty_store_invariants as Hinit.
  revert Hinit. generalize empty_store.
  induction ops as [|op ops IH]; intros db0 (Href & Hne & Huniq); simpl; [done|].
  apply IH.
  destruct (exec_integrity validate_email db0 op Href Hne) as [Href' Hne'].
  split; [done|]. split; [done|]. by apply exec_emails_unique.
Qed.

Lemma example_store_invariants :
  references_ok example_store /\ orders_nonempty example_store /\
  emails_unique example_store.
Proof.
  split; [split|split].
  - intros pk o Ho. simpl in Ho. by rewrite lookup_empty in Ho.
  - intros o p Hin. by apply not_elem_of_empty in Hin.
  - intros pk o Ho. simpl in Ho. by rewrite lookup_empty in Ho.
  - intros i j ci cj Hi Hj _. simpl in Hi, Hj.
    apply lookup_singleton_Some in Hi as [<- _], Hj as [<- _]. done.
Qed.

Lemma exec_keeps_invariants_witness :
  references_ok example_order_store /\ orders_nonempty example_order_store /\
  emails_unique example_order_store.
Proof.
  apply (exec_keeps_invariants example_validate_email example_store
           (OpCreateOrder 0 (OrderInput.mk "1" ["1"; "2"] None)));
    apply example_store_invariants.
Defined.

Lemma reachable_invariants_witness :
  references_ok example_customer_store /\ orders_nonempty example_customer_store /\
  emails_unique example_customer_store.
Proof.
  apply (reachable_invariants example_validate_email).
  exists [OpCreateCustomer example_row_A]. reflexivity.
Defined.

(** ** Stored totals stay current while prices do not change *)

Lemma totals_consistent_products db db' :
  orders db' = orders db -> order_products db' = order_products db ->
  (forall k p, products db !! k = Some p -> products db' !! k = Some p) ->
  references_ok db -> totals_consistent db -> totals_consistent db'.
Proof.
  intros Ho Hl Hp [_ Hlink] Htc k o Hk. rewrite Ho in Hk.
  rewrite (linked_products_ext db db' k) by (intros p; by rewrite Hl).
  rewrite (resolved_prices_ext db db'); [by apply Htc|].
  intros k' Hk'. apply elem_of_elements, elem_of_linked_products in Hk'.
  destruct (Hlink _ _ Hk') as [_ [p Hp']]. by rewrite (Hp _ _ Hp'), Hp'.
Qed.

Lemma CreateProduct_mutate_tables db input :
  let db' := store_after db (CreateProduct_mutate db input) in
  orders db' = orders db /\ order_products db' = order_products db /\
  (forall k p, products db !! k = Some p -> products db' !! k = Some p).
Proof.
  intros db'; subst db'.
  unfold CreateProduct_mutate, Product_objects_create.
  repeat case_match; simplify_eq/=; repeat split; try done.
  intros k p Hk. rewrite lookup_insert_ne; [done|]. intros <-.
  apply (is_fresh (dom (products db))), elem_of_dom. eauto.
Qed.

Lemma CreateOrder_mutate_totals now db input :
  totals_consistent db ->
  totals_consistent (store_after db (CreateOrder_mutate now db input)).
Proof.
  intros Htc.
  destruct (CreateOrder_mutate now db input) as [[[db1 order] m]|e] eqn:Hrun;
    simpl; [|done].
  apply CreateOrder_mutate_Return in Hrun as (customer & ids & _ & _ & _ & _ & _ & -> & -> & _).
  set (ps := products_with_keys db ids).
  set (o := Order.mk _ _ _).
  change ((fresh (dom (orders db)), o).1) with (fresh (dom (orders db))).
  assert (orders db !! fresh (dom (orders db)) = None) as Hfresh
    by apply not_elem_of_dom, is_fresh.
  intros k o' Hk. simpl in Hk.
  apply lookup_insert_Some in Hk as [[<- <-]|[Hne Hk]].
  - rewrite linked_products_set.
    change (Order.total_amount o)
      with (py_sum ((fun kp => Product.price kp.2) <$> ps)).
    rewrite py_sum_exact. apply exact_sum_Permutation.
    unfold ps at 1. rewrite filter_id_in_prices. fold ps.
    change (resolved_prices (products_set (Order_objects_create db o).1
                               (fresh (dom (orders db))) ps))
      with (resolved_prices db).
    unfold resolved_prices. apply omap_Permutation. symmetry.
    apply elements_list_to_set, filter_id_in_NoDup.
  - rewrite (linked_products_ext db _ k).
    + by apply Htc.
    + intros p. rewrite elem_of_products_set. split.
      * intros [[_ ?]|[? _]]; done.
      * intros Hin. left. eauto.
Qed.

Lemma Order_calculate_total_totals db self :
  totals_consistent db ->
  totals_consistent (store_after db (Order_calculate_total db self)).
Proof.
  intros Htc. unfold Order_calculate_total.
  destruct (orders db !! self.1) as [row|] eqn:Hrow; simpl; [|done].
  intros k o' Hk. simpl in Hk.
  apply lookup_insert_Some in Hk as [[<- <-]|[Hne Hk]].
  - exact (products_all_exact db self.1).
  - exact (Htc k o' Hk).
Qed.

Lemma exec_totals validate_email db op :
  is_set_price op = false ->
  references_ok db -> totals_consistent db ->
  totals_consistent (exec validate_email db op).
Proof.
  intros Hop Href Htc.
  destruct op as [input|input|input|now input|k price|self]; simpl; try done.
  - destruct (CreateCustomer_mutate validate_email db input)
      as [[[db1 c] m]|e] eqn:Hrun; simpl; [|done].
    apply CreateCustomer_mutate_Return_frame in Hrun as (Hp & Ho & Hl & _).
    apply (totals_consistent_products db); try done. by rewrite Hp.
  - rewrite BulkCreateCustomers_mutate_rows.
    destruct (bulk_rows_frame validate_email input 1 db) as (Hp & Ho & Hl & _).
    apply (totals_consistent_products db); try done. by rewrite Hp.
  - destruct (CreateProduct_mutate_tables db input) as (Ho & Hl & Hp).
    by apply (totals_consistent_products db).
  - by apply CreateOrder_mutate_totals.
  - by apply Order_calculate_total_totals.
Qed.

Lemma prices_held_same db db' :
  products db' = products db -> prices_held db -> prices_held db'.
Proof. unfold prices_held. by intros ->. Qed.

(** An operation that hands the store held prices only keeps the prices
    of the store held. *)
Lemma exec_prices_held validate_email db op :
  op_held op -> prices_held db -> prices_held (exec validate_email db op).
Proof.
  intros Hop Hheld.
  destruct op as [input|input|input|now input|k price|self]; simpl.
  - destruct (CreateCustomer_mutate validate_email db input)
      as [[[db1 c] m]|e] eqn:Hrun; simpl; [|done].
    apply CreateCustomer_mutate_Return_frame in Hrun as (Hp & _).
    by apply (prices_held_same db).
  - rewrite BulkCreateCustomers_mutate_rows.
    destruct (bulk_rows_frame validate_email input 1 db) as (Hp & _).
    by apply (prices_held_same db).
  - simpl in Hop. destruct Hop as [_ Hop].
    unfold CreateProduct_mutate, Product_objects_create.
    destruct (Decimal_of_string (ProductInput.price input)) as [[f|neg|sig]|];
      simpl; try done.
    + destruct (coef f <=? 0) eqn:Hcoef; [done|].
      destruct (ProductInput.stock input <? 0); [done|]. simpl.
      apply map_Forall_insert_2; [|done]. simpl.
      apply Hop; [done|]. by apply Z.leb_gt.
    + destruct neg; [done|]. by destruct (ProductInput.stock input <? 0).
  - destruct (CreateOrder_mutate now db input) as [[[db' order] m]|e] eqn:Hrun;
      simpl; [|done].
    apply CreateOrder_mutate_Return in Hrun
      as (customer & ids & _ & _ & _ & _ & _ & -> & -> & _).
    exact Hheld.
  - simpl in Hop. unfold prices_held, Product_set_price; simpl.
    intros pk p Hp. apply lookup_alter_Some in Hp as [(_ & q & _ & ->)|[_ Hp]].
    + exact Hop.
    + by apply (Hheld pk p).
  - apply (prices_held_same db); [|done].
    unfold Order_calculate_total. by case_match.
Qed.

(** X17. As long as no product changes its price, every stored total is
    current: from a store with sound references whose totals each denote
    the sum of the prices of the order's products (the empty store is
    one), any sequence of operations none of which is a price change leads
    to such a store.  The decimal columns hold what the run stores: the
    prices of the first store, the prices of the products created, and the
    totals of the last store; the prices of the last store are then held
    too. *)
Theorem exec_keeps_totals validate_email (ops : list Operation) db :
  Forall (fun op => is_set_price op = false) ops ->
  Forall op_held ops ->
  references_ok db -> orders_nonempty db -> totals_consistent db ->
  prices_held db ->
  totals_held (fold_left (exec validate_email) ops db) ->
  totals_consistent (fold_left (exec validate_email) ops db) /\
  prices_held (fold_left (exec validate_email) ops db).
Proof.
  intros Hops. revert db.
  induction Hops as [|op ops Hop _ IH];
    intros db Hheld Href Hne Htc Hprices Htotals; simpl; [done|].
  apply Forall_cons in Hheld as [Hop_held Hheld].
  destruct (exec_integrity validate_email db op Href Hne) as [Href' Hne'].
  apply IH; try done.
  - by apply exec_totals.
  - by apply exec_prices_held.
Qed.

Lemma exec_keeps_totals_witness :
  let db := fold_left (exec example_validate_email)
       [OpCreateCustomer example_row_A;
        OpCreateProduct (ProductInput.mk "Laptop" "10.00" 10);
        OpCreateProduct (ProductInput.mk "Mouse" "5.50" 50);
        OpCreateOrder 0 (OrderInput.mk "1" ["1"; "2"] None);
        OpCalculateTotal example_order]
       empty_store in
  orders db = {[ 1%positive := Order.mk 1 (mkFinite 1550 (-2)) 0 ]} /\
  totals_consistent db /\ prices_held db.
Proof.
  intros db.
  assert (orders db = {[ 1%positive := Order.mk 1 (mkFinite 1550 (-2)) 0 ]}) as Horders
    by (vm_compute; reflexivity).
  split; [exact Horders|].
  apply exec_keeps_totals.
  - repeat constructor.
  - repeat (apply Forall_cons; split); try apply Forall_nil; try exact I.
    all: split; [reflexivity|].
    all: intros f Hf _; vm_compute in Hf; injection Hf as <-.
    all: unfold DecimalField_holds; simpl; lia.
  - apply empty_store_invariants.
  - apply empty_store_invariants.
  - intros pk o Ho. simpl in Ho. by rewrite lookup_empty in Ho.
  - intros pk p Hp. simpl in Hp. by rewrite lookup_empty in Hp.
  - unfold totals_held. fold db. rewrite Horders.
    apply map_Forall_singleton. unfold DecimalField_holds; simpl; lia.
Defined.
